(** * QR link generator: the history and session flow of [src/App.tsx]

    A shallow embedding of the state management of the [App] component
    (validation, encoder call, bounded de-duplicated history, persistence
    under the [qrHistory] key) and the properties of it that the
    specification states. *)

From Stdlib Require Import ZArith NArith Ascii String.
From Stdlib Require DecimalPos DecimalFacts.
From stdpp Require Import base tactics numbers option list.

Local Open Scope N_scope.

(** ** Strings

    A JavaScript string is a sequence of UTF-16 code units.  The ASCII
    string literals of the source are written with [js]. *)

Abbreviation jsstring := (list N).

Definition js (s : string) : jsstring :=
  N_of_ascii <$> list_ascii_of_string s.

(** [WhiteSpace] and [LineTerminator] of ECMA-262, the code points that
    [String.prototype.trim] strips. *)
Definition is_white_space (c : N) : bool :=
  (c =? 9) || (c =? 11) || (c =? 12) || (c =? 32) || (c =? 160) ||
  (c =? 5760) || ((8192 <=? c) && (c <=? 8202)) || (c =? 8239) ||
  (c =? 8287) || (c =? 12288) || (c =? 65279).

Definition is_line_terminator (c : N) : bool :=
  (c =? 10) || (c =? 13) || (c =? 8232) || (c =? 8233).

Definition is_trimmed_unit (c : N) : bool :=
  is_white_space c || is_line_terminator c.

Fixpoint trimStart (s : jsstring) : jsstring :=
  match s with
  | c :: s' => if is_trimmed_unit c then trimStart s' else s
  | [] => []
  end.

Definition trimEnd (s : jsstring) : jsstring :=
  reverse (trimStart (reverse s)).

(** [urlString.trim()]. *)
Definition trim (s : jsstring) : jsstring := trimEnd (trimStart s).

(** Truthiness of a string: only the empty string is falsy. *)
Definition truthy (s : jsstring) : bool :=
  match s with [] => false | _ :: _ => true end.

(** ** Platform calls

    A call into the platform or a library (the [URL] constructor,
    [QRCode.toDataURL], the clock, [window.confirm], [localStorage])
    either returns a value or throws.  The handlers below take the
    outcomes of the calls they make as arguments. *)

Inductive outcome (A : Type) : Type :=
  | Returns (a : A)
  | Throws.
Arguments Returns {A} a.
Arguments Throws {A}.

(** ** Numbers

    The values of type [number] that the component is modelled to hold
    in [createdAt].  [Date.now()] returns an integer.  [JSON.parse]
    returns a double: the model holds the integers of magnitude at most
    2^53, which doubles represent exactly and [Number::toString] prints
    as their decimal numeral, and the two infinities, which a numeral
    beyond the range of doubles is read as.  Other doubles (fractions,
    larger integers) are not modelled; [NaN] is the result of neither
    call.  An [Integer] of larger magnitude stands for no value of the
    program: the properties that depend on the numeral of a number are
    stated for [safe_integer] numbers. *)
Inductive number : Type :=
  | Integer (z : Z)
  | Infinity (negative : bool).
Coercion Integer : Z >-> number.
Bind Scope Z_scope with number.

Definition safe_integer (n : number) : Prop :=
  match n with
  | Integer z => (- 2 ^ 53 ≤ z ≤ 2 ^ 53)%Z
  | Infinity _ => False
  end.

(** ** Data model *)

(** Modelled from the spec: the [QrCodeEntry] interface of [./types] is
    not part of the sources at hand.  Its fields are the four that
    [handleGenerateQrCode] fills in (lines 208-213); the specification
    calls [dataUrl] the image payload.  [createdAt] is a number: the
    value of [Date.now()] in the entries the handler creates, and
    whatever number the stored text holds in the entries that are
    loaded. *)
Record QrCodeEntry : Type := mkEntry {
  id : jsstring;
  url : jsstring;
  dataUrl : jsstring;
  createdAt : number
}.

(** The five [useState] cells of [App] (lines 158-162). *)
Record AppState : Type := mkState {
  urlInput : jsstring;
  currentQr : option QrCodeEntry;
  history : list QrCodeEntry;
  isLoading : bool;
  error : option jsstring
}.

Definition initial_state : AppState :=
  {| urlInput := []; currentQr := None; history := [];
     isLoading := false; error := None |}.

Definition setUrlInput (v : jsstring) (st : AppState) : AppState :=
  {| urlInput := v; currentQr := currentQr st; history := history st;
     isLoading := isLoading st; error := error st |}.

Definition setCurrentQr (v : option QrCodeEntry) (st : AppState) : AppState :=
  {| urlInput := urlInput st; currentQr := v; history := history st;
     isLoading := isLoading st; error := error st |}.

(** [setHistory] with an updater function, applied to the latest history;
    [setHistory(v)] is [setHistory (λ _, v)]. *)
Definition setHistory (f : list QrCodeEntry → list QrCodeEntry)
    (st : AppState) : AppState :=
  {| urlInput := urlInput st; currentQr := currentQr st;
     history := f (history st);
     isLoading := isLoading st; error := error st |}.

Definition setIsLoading (v : bool) (st : AppState) : AppState :=
  {| urlInput := urlInput st; currentQr := currentQr st; history := history st;
     isLoading := v; error := error st |}.

Definition setError (v : option jsstring) (st : AppState) : AppState :=
  {| urlInput := urlInput st; currentQr := currentQr st; history := history st;
     isLoading := isLoading st; error := v |}.

(** ** Validation (lines 6-13 and 188) *)

(** [isValidUrl]: [true] when [new URL(urlString)] returns, [false] when
    it throws.  The argument is the outcome of that constructor call. *)
Definition isValidUrl {A} (constructed : outcome A) : bool :=
  match constructed with
  | Returns _ => true
  | Throws => false
  end.

(** The guard of line 188: [!urlInput.trim() || !isValidUrl(urlInput)]. *)
Definition rejects {A} (constructed : outcome A) (input : jsstring) : bool :=
  negb (truthy (trim input)) || negb (isValidUrl constructed).

Definition accepts {A} (constructed : outcome A) (input : jsstring) : bool :=
  negb (rejects constructed input).

(** ** Generation (lines 187-224) *)

Definition invalid_url_message : jsstring :=
  js "Please enter a valid URL (e.g., https://example.com).".

Definition encoder_failure_message : jsstring :=
  js "Failed to generate QR code. Please try again.".

(** What the environment answers during one run of
    [handleGenerateQrCode]. *)
Record GenerateEnv : Type := mkEnv {
  new_URL : outcome unit;            (* [new URL(urlInput)] *)
  toDataURL : outcome jsstring;      (* [await QRCode.toDataURL(urlInput, ...)] *)
  toISOString : jsstring;            (* [new Date().toISOString()] *)
  Date_now : number                  (* [Date.now()] *)
}.

(** The updater of line 216:
    [[newEntry, ...prevHistory.filter(item => item.url !== newEntry.url).slice(0, 19)]]. *)
Definition insert (newEntry : QrCodeEntry) (prevHistory : list QrCodeEntry)
    : list QrCodeEntry :=
  newEntry :: take 19 (filter (λ item, url item ≠ url newEntry) prevHistory).

(** The handler runs in two parts: up to the [await], and the
    continuation once the encoder has settled. *)
Inductive started : Type :=
  | Aborted (st : AppState)
  | Awaiting (st : AppState) (captured : jsstring).

Definition generate_start (env : GenerateEnv) (st : AppState) : started :=
  if rejects (new_URL env) (urlInput st) then
    Aborted (setError (Some invalid_url_message) st)
  else
    Awaiting (setError None (setIsLoading true st)) (urlInput st).

Definition generate_settle (env : GenerateEnv) (captured : jsstring)
    (st : AppState) : AppState :=
  setIsLoading false
    match toDataURL env with
    | Returns payload =>
        let newEntry :=
          {| id := toISOString env; url := captured;
             dataUrl := payload; createdAt := Date_now env |} in
        setUrlInput [] (setHistory (insert newEntry)
                         (setCurrentQr (Some newEntry) st))
    | Throws => setError (Some encoder_failure_message) st
    end.

Definition handleGenerateQrCode (env : GenerateEnv) (st : AppState) : AppState :=
  match generate_start env st with
  | Aborted st' => st'
  | Awaiting st' captured => generate_settle env captured st'
  end.

(** ** Selection and clearing (lines 226-235) *)

Definition handleSelectHistoryItem (item : QrCodeEntry) (st : AppState) : AppState :=
  setCurrentQr (Some item) st.

(** [confirmed] is the answer of [window.confirm]. *)
Definition handleClearHistory (confirmed : bool) (st : AppState) : AppState :=
  if confirmed then setCurrentQr None (setHistory (λ _, []) st) else st.

(** ** Serialization: [JSON.stringify] at type [QrCodeEntry[]] (line 181)

    The text [JSON.stringify] produces for an array of entries, after
    ECMA-262: [SerializeJSONArray] and [SerializeJSONObject] without
    indentation, [QuoteJSONString] for keys and string values, and for
    [createdAt] the numeral of [Number::toString] when it is finite and
    [null] when it is not. *)

Definition hex_digit (d : N) : N := if d <? 10 then 48 + d else 87 + d.

(** [UnicodeEscape]: a backslash, [u] and four lowercase hexadecimal digits. *)
Definition unicode_escape (c : N) : jsstring :=
  [92; 117; hex_digit (c / 4096 mod 16); hex_digit (c / 256 mod 16);
   hex_digit (c / 16 mod 16); hex_digit (c mod 16)].

Definition is_high_surrogate (c : N) : bool := (55296 <=? c) && (c <=? 56319).
Definition is_low_surrogate (c : N) : bool := (56320 <=? c) && (c <=? 57343).

(** One code unit that is not the first half of a surrogate pair. *)
Definition quote_unit (c : N) : jsstring :=
  if c =? 8 then [92; 98]
  else if c =? 9 then [92; 116]
  else if c =? 10 then [92; 110]
  else if c =? 12 then [92; 102]
  else if c =? 13 then [92; 114]
  else if c =? 34 then [92; 34]
  else if c =? 92 then [92; 92]
  else if (c <? 32) || is_high_surrogate c || is_low_surrogate c
       then unicode_escape c
  else [c].

(** A well-formed surrogate pair is copied; a lone surrogate is escaped. *)
Fixpoint quote_units (s : jsstring) : jsstring :=
  match s with
  | [] => []
  | c :: s' =>
      if is_high_surrogate c then
        match s' with
        | d :: s'' =>
            if is_low_surrogate d then c :: d :: quote_units s''
            else unicode_escape c ++ quote_units s'
        | [] => unicode_escape c
        end
      else quote_unit c ++ quote_units s'
  end.

Definition QuoteJSONString (s : jsstring) : jsstring :=
  34 :: quote_units s ++ [34].

Fixpoint uint_units (d : Decimal.uint) : jsstring :=
  match d with
  | Decimal.Nil => []
  | Decimal.D0 d => 48 :: uint_units d
  | Decimal.D1 d => 49 :: uint_units d
  | Decimal.D2 d => 50 :: uint_units d
  | Decimal.D3 d => 51 :: uint_units d
  | Decimal.D4 d => 52 :: uint_units d
  | Decimal.D5 d => 53 :: uint_units d
  | Decimal.D6 d => 54 :: uint_units d
  | Decimal.D7 d => 55 :: uint_units d
  | Decimal.D8 d => 56 :: uint_units d
  | Decimal.D9 d => 57 :: uint_units d
  end.

(** [Number::toString] of an integer of magnitude at most 2^53: its
    decimal numeral.  (Beyond 2^53 the conversion prints the shortest
    digits that identify the double, and exponent notation from 10^21
    on; this definition is exact for [safe_integer] numbers only.) *)
Definition Number_toString (z : Z) : jsstring :=
  match Z.to_int z with
  | Decimal.Pos d => uint_units d
  | Decimal.Neg d => 45 :: uint_units d
  end.

(** [SerializeJSONProperty] on a number: [null] when it is not finite. *)
Definition serialize_number (n : number) : jsstring :=
  match n with
  | Integer z => Number_toString z
  | Infinity _ => js "null"
  end.

Definition stringify_entry (e : QrCodeEntry) : jsstring :=
  123 :: QuoteJSONString (js "id") ++ 58 :: QuoteJSONString (id e)
  ++ 44 :: QuoteJSONString (js "url") ++ 58 :: QuoteJSONString (url e)
  ++ 44 :: QuoteJSONString (js "dataUrl") ++ 58 :: QuoteJSONString (dataUrl e)
  ++ 44 :: QuoteJSONString (js "createdAt") ++ 58 :: serialize_number (createdAt e)
  ++ [125].

Fixpoint stringify_elements (h : list QrCodeEntry) : jsstring :=
  match h with
  | [] => []
  | [e] => stringify_entry e
  | e :: h' => stringify_entry e ++ 44 :: stringify_elements h'
  end.

Definition JSON_stringify (h : list QrCodeEntry) : jsstring :=
  91 :: stringify_elements h ++ [93].

(** ** Deserialization: [JSON.parse] (line 168) *)

(** JSON values.  A numeral is read as the double nearest to it
    ([JNumber]) where the model holds that double: an integer numeral
    of magnitude at most 2^53 as that integer, one of magnitude
    2^1024 - 2^970 or more as an infinity.  Any other numeral (with a
    fraction or an exponent, or an integer in between) is kept as
    written ([JNumeral]): its double is not modelled. *)
#[warnings="-register-all"] Inductive json : Type :=
  | JNull
  | JBool (b : bool)
  | JNumber (n : number)
  | JNumeral (lexeme : jsstring)
  | JString (s : jsstring)
  | JArray (items : list json)
  | JObject (members : list (jsstring * json)).

(** The result of a parser on a text: a value and the rest of the text,
    a syntax error, or recursion budget exhausted. *)
Inductive parsed (A : Type) : Type :=
  | Ok (a : A) (rest : jsstring)
  | SyntaxError
  | OutOfFuel.
Arguments Ok {A} a rest.
Arguments SyntaxError {A}.
Arguments OutOfFuel {A}.

Definition parsed_bind {A B} (p : parsed A) (k : A → jsstring → parsed B)
    : parsed B :=
  match p with
  | Ok a rest => k a rest
  | SyntaxError => SyntaxError
  | OutOfFuel => OutOfFuel
  end.

Definition parsed_map {A B} (f : A → B) (p : parsed A) : parsed B :=
  parsed_bind p (λ a rest, Ok (f a) rest).

(** JSON white space: tab, line feed, carriage return, space. *)
Definition is_json_ws (c : N) : bool :=
  (c =? 9) || (c =? 10) || (c =? 13) || (c =? 32).

Fixpoint skip_ws (s : jsstring) : jsstring :=
  match s with
  | c :: s' => if is_json_ws c then skip_ws s' else s
  | [] => []
  end.

Definition hex_value (c : N) : option N :=
  if (48 <=? c) && (c <=? 57) then Some (c - 48)
  else if (97 <=? c) && (c <=? 102) then Some (c - 87)
  else if (65 <=? c) && (c <=? 70) then Some (c - 55)
  else None.

Definition hex4 (a b c d : N) : option N :=
  match hex_value a, hex_value b, hex_value c, hex_value d with
  | Some x, Some y, Some z, Some w => Some (4096 * x + 256 * y + 16 * z + w)
  | _, _, _, _ => None
  end.

(** The single-character escapes: quote, backslash, solidus, b, f, n, r, t. *)
Definition unescape (e : N) : option N :=
  if e =? 34 then Some 34
  else if e =? 92 then Some 92
  else if e =? 47 then Some 47
  else if e =? 98 then Some 8
  else if e =? 102 then Some 12
  else if e =? 110 then Some 10
  else if e =? 114 then Some 13
  else if e =? 116 then Some 9
  else None.

(** The characters of a string after its opening quote, up to and
    including the closing quote. *)
Fixpoint parse_string_units (s : jsstring) : parsed jsstring :=
  match s with
  | [] => SyntaxError
  | c :: s' =>
      if c =? 34 then Ok [] s'
      else if c =? 92 then
        match s' with
        | [] => SyntaxError
        | e :: s'' =>
            if e =? 117 then
              match s'' with
              | x :: y :: z :: w :: s3 =>
                  match hex4 x y z w with
                  | Some u => parsed_map (cons u) (parse_string_units s3)
                  | None => SyntaxError
                  end
              | _ => SyntaxError
              end
            else
              match unescape e with
              | Some u => parsed_map (cons u) (parse_string_units s'')
              | None => SyntaxError
              end
        end
      else if c <? 32 then SyntaxError
      else parsed_map (cons c) (parse_string_units s')
  end.

Definition is_digit (c : N) : bool := (48 <=? c) && (c <=? 57).

(** The longest run of digits at the head of a text, and what follows. *)
Fixpoint span_digits (s : jsstring) : jsstring * jsstring :=
  match s with
  | c :: s' =>
      if is_digit c then
        let '(ds, rest) := span_digits s' in (c :: ds, rest)
      else ([], s)
  | [] => ([], [])
  end.

Fixpoint digits_value (acc : N) (ds : jsstring) : N :=
  match ds with
  | [] => acc
  | c :: ds' => digits_value (10 * acc + (c - 48)) ds'
  end.

(** The optional fraction of a numeral: [None] when malformed, else
    whether there is one and the rest. *)
Definition parse_fraction (s : jsstring) : option (bool * jsstring) :=
  match s with
  | c :: s' =>
      if c =? 46 then
        match span_digits s' with
        | ([], _) => None
        | (_ :: _, rest) => Some (true, rest)
        end
      else Some (false, s)
  | [] => Some (false, s)
  end.

Definition parse_exponent (s : jsstring) : option (bool * jsstring) :=
  match s with
  | c :: s' =>
      if (c =? 101) || (c =? 69) then
        let s'' := match s' with
                   | g :: t => if (g =? 43) || (g =? 45) then t else s'
                   | [] => s'
                   end in
        match span_digits s'' with
        | ([], _) => None
        | (_ :: _, rest) => Some (true, rest)
        end
      else Some (false, s)
  | [] => Some (false, s)
  end.

(** The value of an integer numeral with the given sign and magnitude:
    exact up to 2^53; an infinity from 2^1024 - 2^970 on, where
    rounding to the nearest double overflows; not modelled in between. *)
Definition number_of_numeral (negative : bool) (magnitude : Z)
    (lexeme : jsstring) : json :=
  if (magnitude <=? 2 ^ 53)%Z then
    JNumber (Integer (if negative then (- magnitude)%Z else magnitude))
  else if (2 ^ 1024 - 2 ^ 970 <=? magnitude)%Z then
    JNumber (Infinity negative)
  else JNumeral lexeme.

(** A JSON number: an optional minus, an integer part without leading
    zeros, an optional fraction and an optional exponent.  [s] is the
    whole numeral with what follows, [s1] the same after the sign. *)
Definition parse_unsigned (negative : bool) (s s1 : jsstring) : parsed json :=
  match span_digits s1 with
  | ([], _) => SyntaxError
  | (d :: ds, s2) =>
      if (d =? 48) && truthy ds then SyntaxError
      else
        match parse_fraction s2 with
        | None => SyntaxError
        | Some (has_fraction, s3) =>
            match parse_exponent s3 with
            | None => SyntaxError
            | Some (has_exponent, s4) =>
                if has_fraction || has_exponent then
                  Ok (JNumeral (take (length s - length s4) s)) s4
                else
                  Ok (number_of_numeral negative
                        (Z.of_N (digits_value 0 (d :: ds)))
                        (take (length s - length s4) s)) s4
            end
        end
  end.

Definition parse_number (s : jsstring) : parsed json :=
  match s with
  | c :: t => if c =? 45 then parse_unsigned true s t
              else parse_unsigned false s s
  | [] => SyntaxError
  end.

(** [expect word v s]: the literal [word] at the head of [s]. *)
Fixpoint expect (word : jsstring) (v : json) (s : jsstring) : parsed json :=
  match word with
  | [] => Ok v s
  | w :: word' =>
      match s with
      | c :: s' => if c =? w then expect word' v s' else SyntaxError
      | [] => SyntaxError
      end
  end.

(** [after c s]: what follows the code unit [c], when [s] is optional
    white space and then [c]. *)
Definition after (c : N) (s : jsstring) : option jsstring :=
  match skip_ws s with
  | d :: s' => if d =? c then Some s' else None
  | [] => None
  end.

(** Recursive descent over values, the elements of a non-empty array and
    the members of a non-empty object.  Every call spends one unit of
    [fuel]. *)
Fixpoint parse_value (fuel : nat) (s : jsstring) : parsed json :=
  match fuel with
  | O => OutOfFuel
  | S fuel =>
      match skip_ws s with
      | [] => SyntaxError
      | c :: s' =>
          if c =? 34 then parsed_map JString (parse_string_units s')
          else if c =? 91 then
            match after 93 s' with
            | Some s'' => Ok (JArray []) s''
            | None => parsed_map JArray (parse_elements fuel s')
            end
          else if c =? 123 then
            match after 125 s' with
            | Some s'' => Ok (JObject []) s''
            | None => parsed_map JObject (parse_members fuel s')
            end
          else if c =? 116 then expect (js "rue") (JBool true) s'
          else if c =? 102 then expect (js "alse") (JBool false) s'
          else if c =? 110 then expect (js "ull") JNull s'
          else parse_number (c :: s')
      end
  end
with parse_elements (fuel : nat) (s : jsstring) : parsed (list json) :=
  match fuel with
  | O => OutOfFuel
  | S fuel =>
      parsed_bind (parse_value fuel s) (λ v s1,
        match after 44 s1 with
        | Some s2 => parsed_map (cons v) (parse_elements fuel s2)
        | None =>
            match after 93 s1 with
            | Some s2 => Ok [v] s2
            | None => SyntaxError
            end
        end)
  end
with parse_members (fuel : nat) (s : jsstring) : parsed (list (jsstring * json)) :=
  match fuel with
  | O => OutOfFuel
  | S fuel =>
      match after 34 s with
      | Some s1 =>
          parsed_bind (parse_string_units s1) (λ k s2,
            match after 58 s2 with
            | Some s3 =>
                parsed_bind (parse_value fuel s3) (λ v s4,
                  match after 44 s4 with
                  | Some s5 => parsed_map (cons (k, v)) (parse_members fuel s5)
                  | None =>
                      match after 125 s4 with
                      | Some s5 => Ok [(k, v)] s5
                      | None => SyntaxError
                      end
                  end)
            | None => SyntaxError
            end)
      | None => SyntaxError
      end
  end.

(** Fuel that no text exhausts (see [parse_value_fuel]). *)
Definition parse_fuel (text : jsstring) : nat := 2 * length text + 1.

(** [JSON.parse(text)]: one value, then only white space; throws a
    [SyntaxError] otherwise. *)
Definition JSON_parse (text : jsstring) : outcome json :=
  match parse_value (parse_fuel text) text with
  | Ok v rest =>
      match skip_ws rest with
      | [] => Returns v
      | _ :: _ => Throws
      end
  | SyntaxError | OutOfFuel => Throws
  end.

(** The parsed value seen at type [QrCodeEntry[]]: an array of objects
    with exactly the members [id], [url], [dataUrl] (strings) and
    [createdAt] (a number that the model holds), in the order the
    application writes them.  This is the form of every text the
    application writes itself.  The model holds no other value: the
    code installs whatever [JSON.parse] returns (members in another
    order, further members, other values), and for those stored texts
    the model says nothing. *)
Definition as_entry (v : json) : option QrCodeEntry :=
  match v with
  | JObject [(k1, JString a); (k2, JString b); (k3, JString c); (k4, JNumber t)] =>
      if decide (k1 = js "id" ∧ k2 = js "url" ∧ k3 = js "dataUrl"
                 ∧ k4 = js "createdAt")
      then Some {| id := a; url := b; dataUrl := c; createdAt := t |}
      else None
  | _ => None
  end.

Definition as_history (v : json) : option (list QrCodeEntry) :=
  match v with
  | JArray items => mapM as_entry items
  | _ => None
  end.

(** ** Persistence (lines 164-185) *)

(** The content of [localStorage] under the key [qrHistory]. *)
Abbreviation storage := (option jsstring).

(** [localStorage.getItem('qrHistory')]; [access] tells whether the
    storage can be read. *)
Definition getItem (access : outcome unit) (store : storage) : outcome storage :=
  match access with
  | Returns _ => Returns store
  | Throws => Throws
  end.

(** What the body of the first effect reads (lines 166-168):
    nothing to load (key absent, empty string, or an exception, which
    is caught and logged), a history, or a parsed value that is not a
    [QrCodeEntry[]]. *)
Inductive loaded : Type :=
  | NotLoaded
  | LoadedHistory (parsedHistory : list QrCodeEntry)
  | Untyped.

Definition read_history (got : outcome storage) : loaded :=
  match got with
  | Throws => NotLoaded
  | Returns None => NotLoaded
  | Returns (Some storedHistory) =>
      if truthy storedHistory then
        match JSON_parse storedHistory with
        | Throws => NotLoaded
        | Returns v =>
            match as_history v with
            | Some parsedHistory => LoadedHistory parsedHistory
            | None => Untyped
            end
        end
      else NotLoaded
  end.

(** Lines 169-172: [setHistory(parsedHistory)], and [setCurrentQr] of
    its first entry when there is one. *)
Definition install (parsedHistory : list QrCodeEntry) (st : AppState) : AppState :=
  match parsedHistory with
  | first :: _ => setCurrentQr (Some first) (setHistory (λ _, parsedHistory) st)
  | [] => setHistory (λ _, parsedHistory) st
  end.

(** The first effect; [None] when the stored value is not in the form
    [as_history] reads: the code goes on with that value, which the
    typed state cannot hold, so the model has no state for it. *)
Definition load_effect (got : outcome storage) (st : AppState) : option AppState :=
  match read_history got with
  | NotLoaded => Some st
  | LoadedHistory parsedHistory => Some (install parsedHistory st)
  | Untyped => None
  end.

(** The second effect (lines 179-185):
    [localStorage.setItem('qrHistory', JSON.stringify(history))]; when
    [setItem] throws the store keeps its content. *)
Definition persist_effect (written : outcome unit) (h : list QrCodeEntry)
    (store : storage) : storage :=
  match written with
  | Returns _ => Some (JSON_stringify h)
  | Throws => store
  end.

(** ** The component with its storage

    The state cells, the stored text and the encoder call in flight, if
    any, with the answers it will get and the input it captured. *)
Record System : Type := mkSystem {
  state : AppState;
  stored : storage;
  awaited : option (GenerateEnv * jsstring)
}.

(** A browser that opens the page over the stored text [store]. *)
Definition opened (store : storage) : System :=
  {| state := initial_state; stored := store; awaited := None |}.

(** Mounting [App]: both effects run after the first render, the second
    still seeing the empty initial history; when the first one set the
    history, the second runs again after the re-render. *)
Definition mount (access written1 written2 : outcome unit) (sys : System)
    : option System :=
  let got := getItem access (stored sys) in
  let store1 := persist_effect written1 (history initial_state) (stored sys) in
  st ← load_effect got initial_state;
  Some {| state := st;
          stored := match read_history got with
                    | LoadedHistory _ => persist_effect written2 (history st) store1
                    | NotLoaded | Untyped => store1
                    end;
          awaited := None |}.

(** A click on "Generate QR Code": the handler up to its [await]. *)
Definition generate_click (env : GenerateEnv) (sys : System) : System :=
  match generate_start env (state sys) with
  | Aborted st' => {| state := st'; stored := stored sys; awaited := awaited sys |}
  | Awaiting st' captured =>
      {| state := st'; stored := stored sys; awaited := Some (env, captured) |}
  end.

(** The encoder settles: the rest of the handler, then the second
    effect when the history was set. *)
Definition settle (written : outcome unit) (sys : System) : option System :=
  match awaited sys with
  | None => None
  | Some (env, captured) =>
      let st' := generate_settle env captured (state sys) in
      Some {| state := st';
              stored := match toDataURL env with
                        | Returns _ => persist_effect written (history st') (stored sys)
                        | Throws => stored sys
                        end;
              awaited := None |}
  end.

(** A click on "Clear History". *)
Definition clear_click (confirmed : bool) (written : outcome unit)
    (sys : System) : System :=
  let st' := handleClearHistory confirmed (state sys) in
  {| state := st';
     stored := if confirmed then persist_effect written (history st') (stored sys)
               else stored sys;
     awaited := awaited sys |}.

Inductive event : Type :=
  | Reload (access written1 written2 : outcome unit)
  | Type_ (v : jsstring)
  | ClickGenerate (env : GenerateEnv)
  | Settle (written : outcome unit)
  | Select (index : nat)
  | ClickClear (confirmed : bool) (written : outcome unit).

(** One event of the user interface; [None] when the interface does not
    offer it: the input and the button are disabled while loading, the
    button also while the input is empty (lines 63 and 67), and the
    history list with its clear button is not rendered while the
    history is empty (line 121). *)
Definition dispatch (ev : event) (sys : System) : option System :=
  match ev with
  | Reload access written1 written2 => mount access written1 written2 sys
  | Type_ v =>
      if isLoading (state sys) then None
      else Some {| state := setUrlInput v (state sys); stored := stored sys;
                   awaited := awaited sys |}
  | ClickGenerate env =>
      if isLoading (state sys) || negb (truthy (urlInput (state sys))) then None
      else Some (generate_click env sys)
  | Settle written => settle written sys
  | Select index =>
      item ← history (state sys) !! index;
      Some {| state := handleSelectHistoryItem item (state sys);
              stored := stored sys; awaited := awaited sys |}
  | ClickClear confirmed written =>
      match history (state sys) with
      | [] => None
      | _ :: _ => Some (clear_click confirmed written sys)
      end
  end.

Fixpoint run (evs : list event) (sys : System) : option System :=
  match evs with
  | [] => Some sys
  | ev :: evs' => sys' ← dispatch ev sys; run evs' sys'
  end.

(** The states a browser session can be in, started over the stored
    text [store]. *)
Definition reachable (store : storage) (sys : System) : Prop :=
  ∃ evs, run evs (opened store) = Some sys.

(** ** The history invariant of the specification *)

Definition bounded_unique (h : list QrCodeEntry) : Prop :=
  (length h ≤ 20)%nat ∧ NoDup (url <$> h).

(** The stored text, if it loads, loads a history within the invariant. *)
Definition store_within (store : storage) : Prop :=
  ∀ h, read_history (Returns store) = LoadedHistory h → bounded_unique h.


(** The contract of the specification for insertion: drop the entries
    with the same [url], prepend, keep the first 20. *)
Definition insert_contract (entry : QrCodeEntry) (h : list QrCodeEntry)
    : list QrCodeEntry :=
  take 20 (entry :: filter (λ item, url item ≠ url entry) h).

(** ** Notions used in the proofs *)

(** What may follow a numeral: nothing, or a code unit that does not
    continue it. *)
Definition ends_numeral (rest : jsstring) : Prop :=
  match rest with
  | [] => True
  | c :: _ => is_digit c = false ∧ c ≠ 46 ∧ c ≠ 101 ∧ c ≠ 69
  end.

(** A parser result that is not out of fuel and, when it is a value,
    leaves at most [n] code units. *)
Definition leaves_at_most {A} (n : nat) (p : parsed A) : Prop :=
  match p with
  | Ok _ rest => (length rest ≤ n)%nat
  | SyntaxError => True
  | OutOfFuel => False
  end.

(** The JSON value of an entry and of a history. *)
Definition entry_json_with (e : QrCodeEntry) (timestamp : json) : json :=
  JObject [(js "id", JString (id e)); (js "url", JString (url e));
           (js "dataUrl", JString (dataUrl e));
           (js "createdAt", timestamp)].

Definition entry_json (e : QrCodeEntry) : json :=
  entry_json_with e (JNumber (createdAt e)).

(** What the text written for an entry parses to: the entry's members,
    and its timestamp when that is a safe integer. *)
Definition reads_as (e : QrCodeEntry) (v : json) : Prop :=
  ∃ timestamp, v = entry_json_with e timestamp
               ∧ (safe_integer (createdAt e) → timestamp = JNumber (createdAt e)).

(** All timestamps are integers of magnitude at most 2^53. *)
Definition safe_timestamps (h : list QrCodeEntry) : Prop :=
  Forall (λ e, safe_integer (createdAt e)) h.


(** ** The wording of the specification for URLs *)

Definition is_alpha (c : N) : bool :=
  ((65 <=? c) && (c <=? 90)) || ((97 <=? c) && (c <=? 122)).

(** After the first letter of a scheme: letters, digits, plus, minus
    and full stop up to a colon; what follows the colon. *)
Fixpoint after_scheme (s : jsstring) : option jsstring :=
  match s with
  | [] => None
  | c :: s' =>
      if c =? 58 then Some s'
      else if is_alpha c || is_digit c || (c =? 43) || (c =? 45) || (c =? 46)
           then after_scheme s'
      else None
  end.

(** Modelled from the spec: "scheme + authority structure" (section
    4.1), read as a scheme, a colon, two slashes and a non-empty
    authority. *)
Definition has_scheme_and_authority (s : jsstring) : bool :=
  match s with
  | c :: s' =>
      is_alpha c &&
      match after_scheme s' with
      | Some (47 :: 47 :: _ :: _) => true
      | _ => false
      end
  | [] => false
  end.

Definition history_json (h : list QrCodeEntry) : json :=
  JArray (entry_json <$> h).

(** Entries inserted one after the other, oldest first. *)
Definition insert_all (es : list QrCodeEntry) (h : list QrCodeEntry)
    : list QrCodeEntry :=
  foldl (λ acc e, insert e acc) h es.

(** Sample data for the examples. *)
Definition sample_entry (n : nat) : QrCodeEntry :=
  {| id := js "2026-01-01T00:00:00.000Z" ++ [N.of_nat n];
     url := js "https://example.com/" ++ [N.of_nat (97 + n)];
     dataUrl := js "data:image/png;base64," ++ [N.of_nat (65 + n)];
     createdAt := 1767225600000 + Z.of_nat n |}.

Definition sample_env : GenerateEnv :=
  {| new_URL := Returns ();
     toDataURL := Returns (js "data:image/png;base64,iVBORw0KGgo=");
     toISOString := js "2026-01-01T00:00:00.000Z";
     Date_now := 1767225600000 |}.

Definition failing_encoder_env : GenerateEnv :=
  {| new_URL := Returns (); toDataURL := Throws;
     toISOString := js "2026-01-01T00:00:00.000Z";
     Date_now := 1767225600000 |}.

Definition rejecting_env : GenerateEnv :=
  {| new_URL := Throws; toDataURL := Throws;
     toISOString := js "2026-01-01T00:00:00.000Z";
     Date_now := 1767225600000 |}.

(** A session: open the page, generate a code, reload, generate the
    same URL again and another one, select the older entry. *)
Definition sample_session : list event :=
  [Reload (Returns ()) (Returns ()) (Returns ());
   Type_ (js "https://example.com");
   ClickGenerate sample_env;
   Settle (Returns ());
   Reload (Returns ()) (Returns ()) (Returns ());
   Type_ (js "https://example.com");
   ClickGenerate sample_env;
   Settle (Returns ());
   Type_ (js "https://example.org/page");
   ClickGenerate sample_env;
   Settle (Returns ());
   Select 1%nat].

(** JSON text for examples, written with single quotes in place of
    double quotes. *)
Definition json_text (s : string) : jsstring :=
  (λ c, if c =? 39 then 34 else c) <$> js s.

(** ** Download (lines 237-245) *)

(** The anchor that [handleDownload] builds and clicks: its [href] and
    its [download] attribute. *)
Record Anchor : Type := mkAnchor {
  href : jsstring;
  download : jsstring
}.

(** [handleDownload]: nothing without a selection; otherwise an anchor
    for the payload of the selection, named after the host of its url.
    [hostname] is the outcome of [new URL(currentQr.url).hostname]; when
    the constructor throws, the exception leaves the handler before the
    anchor is attached or clicked. *)
Definition handleDownload (hostname : outcome jsstring) (st : AppState)
    : outcome (option Anchor) :=
  match currentQr st with
  | None => Returns None
  | Some qr =>
      match hostname with
      | Returns host =>
          Returns (Some {| href := dataUrl qr;
                           download := js "qrcode-" ++ host ++ js ".png" |})
      | Throws => Throws
      end
  end.

(** ** Notions for the session properties *)

(** The current selection, if any, is an entry of the history. *)
Definition selection_in_history (st : AppState) : Prop :=
  match currentQr st with
  | None => True
  | Some e => e ∈ history st
  end.

(** The loading flag is on exactly while an encoder call is awaited;
    the call was started from the input now shown, which passed
    validation, and no error is shown meanwhile. *)
Definition loading_matches (sys : System) : Prop :=
  match awaited sys with
  | Some (env, captured) =>
      isLoading (state sys) = true ∧ urlInput (state sys) = captured
      ∧ accepts (new_URL env) captured = true ∧ error (state sys) = None
  | None => isLoading (state sys) = false
  end.

(** The error cell is empty or holds one of the two messages. *)
Definition known_message (st : AppState) : Prop :=
  error st = None ∨ error st = Some invalid_url_message
  ∨ error st = Some encoder_failure_message.


Definition returned {A} (o : outcome A) : bool :=
  match o with
  | Returns _ => true
  | Throws => false
  end.

(** Every [setItem] of the event succeeds. *)
Definition writes_succeed (ev : event) : bool :=
  match ev with
  | Reload _ written1 written2 => returned written1 && returned written2
  | Settle written => returned written
  | ClickClear _ written => returned written
  | Type_ _ | ClickGenerate _ | Select _ => true
  end.


(** What holds of the cells at every state of a session. *)
Definition steady (sys : System) : Prop :=
  selection_in_history (state sys) ∧ loading_matches sys
  ∧ known_message (state sys).

(** The store holds the text of the current history. *)
Definition synced (sys : System) : Prop :=
  stored sys = Some (JSON_stringify (history (state sys))).

(** The entry a settled encoder call creates (lines 208-213). *)
Definition created (env : GenerateEnv) (captured payload : jsstring)
    : QrCodeEntry :=
  {| id := toISOString env; url := captured; dataUrl := payload;
     createdAt := Date_now env |}.

(** ** Properties *)

Example insert_example :
  insert (mkEntry (js "3") (js "a:b") (js "d3") 3)
         [mkEntry (js "2") (js "c:d") (js "d2") 2;
          mkEntry (js "1") (js "a:b") (js "d1") 1]
  = [mkEntry (js "3") (js "a:b") (js "d3") 3;
     mkEntry (js "2") (js "c:d") (js "d2") 2].
Proof. vm_compute. reflexivity. Qed.

(** *** The history list under [insert] *)

Section Insert.
Implicit Types (e entry : QrCodeEntry) (h : list QrCodeEntry).

Lemma insert_length e h : (length (insert e h) ≤ 20)%nat.
Proof. unfold insert. simpl. rewrite length_take. lia. Qed.

Lemma insert_others_differ e h :
  Forall (λ item, url item ≠ url e) (take 19 (filter (λ item, url item ≠ url e) h)).
Proof.
  apply Forall_take, Forall_forall. intros x Hx.
  by apply list_elem_of_filter in Hx as [? _].
Qed.



Lemma filter_all_pass (P : QrCodeEntry → Prop) `{!∀ x, Decision (P x)} h :
  Forall P h → filter P h = h.
Proof.
  induction 1 as [|x l Hx _ IH]; [done|].
  by rewrite filter_cons_True, IH.
Qed.

Lemma filter_none_pass (P : QrCodeEntry → Prop) `{!∀ x, Decision (P x)} h :
  Forall (λ x, ¬ P x) h → filter P h = [].
Proof.
  induction 1 as [|x l Hx _ IH]; [done|].
  by rewrite filter_cons_False.
Qed.

Lemma insert_all_newest_first es h :
  NoDup (url <$> es) → ∃ t, insert_all es h = take 20 (reverse es) ++ t.
Proof.
  unfold insert_all. induction es as [|e es IH] using rev_ind; intros Hnd.
  - by exists h.
  - rewrite fmap_app in Hnd. apply NoDup_app in Hnd as (Hes & Hfresh & _).
    destruct (IH Hes) as [t Ht].
    rewrite foldl_snoc, Ht, reverse_snoc. unfold insert.
    rewrite filter_app, filter_all_pass.
    + rewrite take_app, take_take. simpl. eexists. reflexivity.
    + apply Forall_take, Forall_forall. intros x Hx Heq. rewrite elem_of_reverse in Hx.
      apply (Hfresh (url x)); [by apply (list_elem_of_fmap_2 url)|].
      simpl. rewrite Heq. constructor.
Qed.

Lemma insert_all_length e es h : (length (insert_all (es ++ [e]) h) ≤ 20)%nat.
Proof. unfold insert_all. rewrite foldl_snoc. apply insert_length. Qed.
End Insert.

(** *** Validation *)

Lemma trimStart_nil (s : jsstring) :
  trimStart s = [] ↔ Forall (λ c, is_trimmed_unit c = true) s.
Proof.
  induction s as [|c s IH]; simpl; [by split|].
  destruct (is_trimmed_unit c) eqn:Hc.
  - rewrite IH. split; [by constructor | by inversion 1].
  - split; [done | by inversion 1; congruence].
Qed.

Lemma trimStart_head (s : jsstring) c t :
  trimStart s = c :: t → is_trimmed_unit c = false.
Proof.
  induction s as [|d s IH]; simpl; [done|].
  destruct (is_trimmed_unit d) eqn:Hd; [done|]. by intros [= -> _].
Qed.

(** The trimmed string is empty exactly when every code unit of the
    string is white space or a line terminator. *)
Lemma trim_nil (s : jsstring) :
  trim s = [] ↔ Forall (λ c, is_trimmed_unit c = true) s.
Proof.
  unfold trim, trimEnd. split.
  - intros H. apply (f_equal reverse) in H.
    rewrite reverse_involutive, reverse_nil in H.
    apply trimStart_nil in H. rewrite Forall_reverse in H.
    apply trimStart_nil. destruct (trimStart s) as [|c t] eqn:Ht; [done|].
    apply trimStart_head in Ht. apply Forall_cons in H as [Hc _].
    simpl in Hc. congruence.
  - intros H. apply trimStart_nil in H. by rewrite H.
Qed.

Lemma accepts_rejects {A} (constructed : outcome A) input :
  accepts constructed input = true ↔ rejects constructed input = false.
Proof. unfold accepts. apply negb_true_iff. Qed.

(** C7, as the code has it: the validator accepts an input exactly
    when the input is non-empty after trimming, that is, has a code
    unit that is neither white space nor a line terminator, and the
    URL constructor, the platform's URL parser, returns on it. *)
Theorem validator_accepts_iff {A} (constructed : outcome A) (input : jsstring) :
  (accepts constructed input = true
   ↔ trim input ≠ [] ∧ ∃ parsed_url, constructed = Returns parsed_url)
  ∧ (trim input ≠ [] ↔ ∃ c, c ∈ input ∧ is_trimmed_unit c = false).
Proof.
  split.
  - unfold accepts, rejects, isValidUrl.
    destruct (trim input) as [|c t], constructed as [u|]; simpl;
      split; try done; try (intros [? [? ?]]; done).
    intros _. split; [done | by exists u].
  - rewrite trim_nil. split.
    + induction input as [|d input IH]; intros Hnot; [by destruct Hnot|].
      destruct (is_trimmed_unit d) eqn:Hd.
      * destruct IH as (c & Hc & Hws).
        { intros Hall. apply Hnot. by constructor. }
        exists c. split; [by right | done].
      * exists d. split; [by left | done].
    + intros (c & Hc & Hws) Hall. rewrite Forall_forall in Hall.
      specialize (Hall c Hc). congruence.
Qed.

(** C7 as stated fails: the input [a:b], on which the URL constructor
    returns (the scheme [a] with the opaque path [b]), is accepted,
    though it has no authority. *)
Lemma accepted_url_without_authority :
  accepts (Returns ()) (js "a:b") = true
  ∧ has_scheme_and_authority (js "a:b") = false
  ∧ has_scheme_and_authority (js "https://example.com") = true.
Proof. by repeat split. Qed.

(** *** Generation *)

Section Generate.
Variables (env : GenerateEnv) (st : AppState).

Lemma generate_rejected :
  rejects (new_URL env) (urlInput st) = true →
  handleGenerateQrCode env st = setError (Some invalid_url_message) st.
Proof.
  intros H. unfold handleGenerateQrCode, generate_start. by rewrite H.
Qed.

Lemma generate_accepted :
  accepts (new_URL env) (urlInput st) = true →
  handleGenerateQrCode env st
  = generate_settle env (urlInput st) (setError None (setIsLoading true st)).
Proof.
  intros H%accepts_rejects. unfold handleGenerateQrCode, generate_start.
  by rewrite H.
Qed.
End Generate.

(** C3: when the input fails validation, generation changes the error
    cell only: history, current selection, loading flag and input are
    as before, and the error is the validation message. *)
Theorem invalid_input_sets_only_error (env : GenerateEnv) (st : AppState) :
  rejects (new_URL env) (urlInput st) = true →
  let st' := handleGenerateQrCode env st in
  history st' = history st ∧ currentQr st' = currentQr st
  ∧ isLoading st' = isLoading st ∧ urlInput st' = urlInput st
  ∧ error st' = Some invalid_url_message.
Proof. intros H. simpl. by rewrite generate_rejected. Qed.

Lemma invalid_input_sets_only_error_witness :
  let st := setUrlInput (js "not a url") initial_state in
  let st' := handleGenerateQrCode rejecting_env st in
  rejects (new_URL rejecting_env) (urlInput st) = true
  ∧ history st' = history st ∧ currentQr st' = currentQr st
  ∧ isLoading st' = isLoading st ∧ urlInput st' = urlInput st
  ∧ error st' = Some invalid_url_message.
Proof.
  split; [reflexivity|].
  apply (invalid_input_sets_only_error rejecting_env
           (setUrlInput (js "not a url") initial_state)).
  reflexivity.
Defined.

(** C8, as the code has it: when the input fails validation, the
    message shown is the sentence with the example URL. *)
Theorem invalid_input_message (env : GenerateEnv) (st : AppState) :
  rejects (new_URL env) (urlInput st) = true →
  error (handleGenerateQrCode env st)
  = Some (js "Please enter a valid URL (e.g., https://example.com).").
Proof. intros H. by rewrite generate_rejected. Qed.

Lemma invalid_input_message_witness :
  rejects (new_URL rejecting_env) (js "not a url") = true
  ∧ error (handleGenerateQrCode rejecting_env
             (setUrlInput (js "not a url") initial_state))
    = Some (js "Please enter a valid URL (e.g., https://example.com).").
Proof.
  split; [reflexivity|].
  apply (invalid_input_message rejecting_env
           (setUrlInput (js "not a url") initial_state)).
  reflexivity.
Defined.

(** C8 as stated fails: on the input [not a url], which the URL
    constructor refuses, the message is not the bare sentence. *)
Lemma invalid_input_message_is_longer :
  rejects (new_URL rejecting_env) (js "not a url") = true
  ∧ error (handleGenerateQrCode rejecting_env
             (setUrlInput (js "not a url") initial_state))
    ≠ Some (js "Please enter a valid URL").
Proof. split; [reflexivity | by vm_compute]. Qed.

(** C4: for an input that passes validation, once the encoder has
    returned, the current selection and the first history entry carry
    that input as their [url]. *)
Theorem valid_url_selected_and_first (env : GenerateEnv) (st : AppState)
    (payload : jsstring) :
  accepts (new_URL env) (urlInput st) = true →
  toDataURL env = Returns payload →
  let st' := handleGenerateQrCode env st in
  url <$> currentQr st' = Some (urlInput st)
  ∧ url <$> history st' !! 0%nat = Some (urlInput st).
Proof.
  intros Hok Henc. simpl. rewrite generate_accepted by done.
  unfold generate_settle. by rewrite Henc.
Qed.

Lemma valid_url_selected_and_first_witness :
  let st := setUrlInput (js "https://example.com") initial_state in
  let st' := handleGenerateQrCode sample_env st in
  url <$> currentQr st' = Some (js "https://example.com")
  ∧ url <$> history st' !! 0%nat = Some (js "https://example.com").
Proof.
  apply (valid_url_selected_and_first sample_env
           (setUrlInput (js "https://example.com") initial_state)
           (js "data:image/png;base64,iVBORw0KGgo=")); reflexivity.
Defined.

(** C5: when the input passes validation and the encoder throws, the
    error is the encoder-failure message and the current selection and
    the history are as before (so is the input; the loading flag is
    off again). *)
Theorem encoder_failure_keeps_state (env : GenerateEnv) (st : AppState) :
  accepts (new_URL env) (urlInput st) = true →
  toDataURL env = Throws →
  let st' := handleGenerateQrCode env st in
  error st' = Some (js "Failed to generate QR code. Please try again.")
  ∧ currentQr st' = currentQr st ∧ history st' = history st
  ∧ urlInput st' = urlInput st ∧ isLoading st' = false.
Proof.
  intros Hok Henc. simpl. rewrite generate_accepted by done.
  unfold generate_settle. by rewrite Henc.
Qed.

Lemma encoder_failure_keeps_state_witness :
  let st := setUrlInput (js "https://example.com")
              (install [sample_entry 0; sample_entry 1] initial_state) in
  let st' := handleGenerateQrCode failing_encoder_env st in
  error st' = Some (js "Failed to generate QR code. Please try again.")
  ∧ currentQr st' = currentQr st ∧ history st' = history st
  ∧ urlInput st' = urlInput st ∧ isLoading st' = false.
Proof.
  apply (encoder_failure_keeps_state failing_encoder_env
           (setUrlInput (js "https://example.com")
              (install [sample_entry 0; sample_entry 1] initial_state)));
    reflexivity.
Defined.

(** C10: the input field is emptied by a successful generation, and
    is left as it was by a validation failure and by an encoder
    failure. *)
Theorem input_field_after_generate (env : GenerateEnv) (st : AppState) :
  (accepts (new_URL env) (urlInput st) = true →
   (∃ payload, toDataURL env = Returns payload) →
   urlInput (handleGenerateQrCode env st) = [])
  ∧ (rejects (new_URL env) (urlInput st) = true →
     urlInput (handleGenerateQrCode env st) = urlInput st)
  ∧ (accepts (new_URL env) (urlInput st) = true →
     toDataURL env = Throws →
     urlInput (handleGenerateQrCode env st) = urlInput st).
Proof.
  split; [|split].
  - intros Hok [payload Henc]. rewrite generate_accepted by done.
    unfold generate_settle. by rewrite Henc.
  - intros H. by rewrite generate_rejected.
  - intros Hok Henc. rewrite generate_accepted by done.
    unfold generate_settle. by rewrite Henc.
Qed.

Lemma input_field_after_generate_witness :
  urlInput (handleGenerateQrCode sample_env
              (setUrlInput (js "https://example.com") initial_state)) = []
  ∧ urlInput (handleGenerateQrCode rejecting_env
                (setUrlInput (js "not a url") initial_state))
    = js "not a url"
  ∧ urlInput (handleGenerateQrCode failing_encoder_env
                (setUrlInput (js "https://example.com") initial_state))
    = js "https://example.com".
Proof.
  split; [|split].
  - refine (proj1 (input_field_after_generate sample_env
             (setUrlInput (js "https://example.com") initial_state)) _ _);
      [reflexivity | eexists; reflexivity].
  - refine (proj1 (proj2 (input_field_after_generate rejecting_env
             (setUrlInput (js "not a url") initial_state))) _).
    reflexivity.
  - refine (proj2 (proj2 (input_field_after_generate failing_encoder_env
             (setUrlInput (js "https://example.com") initial_state))) _ _);
      reflexivity.
Defined.

(** *** Insertion *)

Lemma insert_twice_filter (e1 e2 : QrCodeEntry) (h : list QrCodeEntry) :
  url e1 = url e2 →
  filter (λ item, url item = url e2) (insert e2 (insert e1 h)) = [e2].
Proof.
  intros Heq. unfold insert at 1.
  rewrite filter_cons_True by done. f_equal.
  apply filter_none_pass.
  eapply Forall_impl; [apply insert_others_differ|]. done.
Qed.

Lemma insert_all_21 (es h : list QrCodeEntry) :
  length es = 21%nat → NoDup (url <$> es) →
  insert_all es h = reverse (drop 1 es).
Proof.
  intros Hlen Hnd.
  destruct (insert_all_newest_first es h Hnd) as [t Ht].
  destruct es as [|oldest es] using rev_ind; [done|]. clear IHes.
  pose proof (insert_all_length oldest es h) as Hle.
  rewrite Ht, length_app, length_take, length_reverse, Hlen in Hle.
  destruct t; [|simpl in Hle; lia].
  rewrite Ht, app_nil_r, take_reverse, Hlen. done.
Qed.

(** C2: insertion is the contract of the specification (drop the
    entries with the same url, prepend, keep the first 20) and the new
    entry becomes the current selection; the same URL inserted twice in
    a row is there once, first, with the later payload; and 21 entries
    with distinct URLs leave the 20 newest, newest first. *)
Theorem insert_meets_contract :
  (∀ entry h, insert entry h = insert_contract entry h)
  ∧ (∀ access payload iso now captured st,
       let newEntry := mkEntry iso captured payload now in
       let st' := generate_settle (mkEnv access (Returns payload) iso now)
                    captured st in
       currentQr st' = Some newEntry
       ∧ history st' = insert newEntry (history st))
  ∧ (∀ e1 e2 h, url e1 = url e2 →
       insert e2 (insert e1 h) !! 0%nat = Some e2
       ∧ filter (λ item, url item = url e2) (insert e2 (insert e1 h)) = [e2])
  ∧ (∀ es h, length es = 21%nat → NoDup (url <$> es) →
       insert_all es h = reverse (drop 1 es)
       ∧ length (insert_all es h) = 20%nat).
Proof.
  split; [done|]. split; [done|]. split.
  - intros e1 e2 h Heq. split; [done | by apply insert_twice_filter].
  - intros es h Hlen Hnd. rewrite insert_all_21 by done.
    split; [done|]. rewrite length_reverse, length_drop. lia.
Qed.

Lemma insert_meets_contract_witness :
  (let e1 := mkEntry (js "1") (js "https://example.com") (js "first") 1 in
   let e2 := mkEntry (js "2") (js "https://example.com") (js "second") 2 in
   let h := insert e2 (insert e1 [sample_entry 0]) in
   h !! 0%nat = Some e2 ∧ filter (λ item, url item = url e2) h = [e2])
  ∧ (let es := sample_entry <$> seq 0 21 in
     insert_all es [] = reverse (drop 1 es)
     ∧ length (insert_all es []) = 20%nat).
Proof.
  destruct insert_meets_contract as (_ & _ & Htwice & Hmany). split.
  - apply Htwice. reflexivity.
  - apply Hmany; [reflexivity|]. apply (bool_decide_unpack _). vm_compute. exact I.
Defined.

(** *** Clearing *)


(** *** Strings through [QuoteJSONString] and back *)

Lemma hex_value_digit (d : N) : d < 16 → hex_value (hex_digit d) = Some d.
Proof.
  intros Hd. unfold hex_digit, hex_value.
  destruct (d <? 10) eqn:Hlt.
  - apply N.ltb_lt in Hlt.
    replace ((48 <=? 48 + d) && (48 + d <=? 57)) with true.
    + f_equal. lia.
    + symmetry. apply andb_true_iff. split; apply N.leb_le; lia.
  - apply N.ltb_ge in Hlt.
    replace ((48 <=? 87 + d) && (87 + d <=? 57)) with false.
    + replace ((97 <=? 87 + d) && (87 + d <=? 102)) with true.
      * f_equal. lia.
      * symmetry. apply andb_true_iff. split; apply N.leb_le; lia.
    + symmetry. apply andb_false_iff. right. apply N.leb_gt. lia.
Qed.

Lemma hex4_unicode_escape (c : N) :
  c < 65536 →
  hex4 (hex_digit (c / 4096 mod 16)) (hex_digit (c / 256 mod 16))
       (hex_digit (c / 16 mod 16)) (hex_digit (c mod 16)) = Some c.
Proof.
  intros Hc. unfold hex4.
  rewrite !hex_value_digit by (apply N.mod_lt; lia).
  f_equal. zify. Z.to_euclidean_division_equations. lia.
Qed.

Lemma parse_unicode_escape (c : N) (rest : jsstring) :
  c < 65536 →
  parse_string_units (unicode_escape c ++ rest)
  = parsed_map (cons c) (parse_string_units rest).
Proof.
  intros Hc. unfold unicode_escape. simpl.
  by rewrite hex4_unicode_escape.
Qed.

Lemma surrogate_below_65536 (c : N) :
  (c <? 32) || is_high_surrogate c || is_low_surrogate c = true → c < 65536.
Proof.
  unfold is_high_surrogate, is_low_surrogate.
  rewrite !orb_true_iff, !andb_true_iff, N.ltb_lt, !N.leb_le. lia.
Qed.

Lemma high_surrogate_below_65536 (c : N) :
  is_high_surrogate c = true → c < 65536.
Proof.
  intros H. apply surrogate_below_65536. rewrite H. by destruct (c <? 32).
Qed.

Lemma parse_quote_unit (c : N) (rest : jsstring) :
  parse_string_units (quote_unit c ++ rest)
  = parsed_map (cons c) (parse_string_units rest).
Proof.
  unfold quote_unit.
  repeat match goal with
  | |- context [if ?c =? ?k then _ else _] =>
      destruct (N.eqb_spec c k) as [->|?]; [reflexivity|]
  end.
  destruct ((c <? 32) || is_high_surrogate c || is_low_surrogate c) eqn:Hesc.
  - by apply parse_unicode_escape, surrogate_below_65536.
  - apply orb_false_iff in Hesc as [[Hlow _]%orb_false_iff _].
    simpl. rewrite Hlow.
    destruct (N.eqb_spec c 34); [done|]. by destruct (N.eqb_spec c 92).
Qed.

Lemma parse_surrogate_pair (c d : N) (rest : jsstring) :
  is_high_surrogate c = true → is_low_surrogate d = true →
  parse_string_units (c :: d :: rest)
  = parsed_map (cons c) (parsed_map (cons d) (parse_string_units rest)).
Proof.
  unfold is_high_surrogate, is_low_surrogate.
  rewrite !andb_true_iff, !N.leb_le. intros [? ?] [? ?].
  cbn [parse_string_units].
  destruct (N.eqb_spec c 34); [lia|]. destruct (N.eqb_spec c 92); [lia|].
  destruct (N.ltb_spec c 32); [lia|].
  destruct (N.eqb_spec d 34); [lia|]. destruct (N.eqb_spec d 92); [lia|].
  by destruct (N.ltb_spec d 32); [lia|].
Qed.

Lemma parse_quote_units_bounded (n : nat) (s rest : jsstring) :
  (length s ≤ n)%nat →
  parse_string_units (quote_units s ++ 34 :: rest) = Ok s rest.
Proof.
  revert s. induction n as [|n IH]; intros s Hlen.
  - by destruct s; [|simpl in Hlen; lia].
  - destruct s as [|c s]; [done|]. simpl in Hlen. cbn [quote_units].
    destruct (is_high_surrogate c) eqn:Hhigh.
    + destruct s as [|d s].
      * by rewrite parse_unicode_escape by by apply high_surrogate_below_65536.
      * destruct (is_low_surrogate d) eqn:Hlow.
        -- change ((c :: d :: quote_units s) ++ 34 :: rest)
             with (c :: d :: (quote_units s ++ 34 :: rest)).
           rewrite parse_surrogate_pair by done.
           rewrite IH by (simpl in Hlen; lia). done.
        -- rewrite <- app_assoc, parse_unicode_escape
             by by apply high_surrogate_below_65536.
           rewrite IH by lia. done.
    + rewrite <- app_assoc, parse_quote_unit, IH by lia. done.
Qed.

(** A quoted string parses back to the string it quotes. *)
Lemma parse_QuoteJSONString (s rest : jsstring) :
  parse_string_units (quote_units s ++ 34 :: rest) = Ok s rest.
Proof. by apply (parse_quote_units_bounded (length s)). Qed.

(** *** Integers through [Number::toString] and back *)

Lemma digits_value_acc (d : Decimal.uint) (acc : positive) :
  digits_value (Npos acc) (uint_units d) = Npos (Pos.of_uint_acc d acc).
Proof.
  revert acc. induction d; intros acc; cbn [uint_units digits_value Pos.of_uint_acc];
    [done | rewrite <- IHd; f_equal; lia ..].
Qed.

Lemma digits_value_uint (d : Decimal.uint) :
  digits_value 0 (uint_units d) = Pos.of_uint d.
Proof.
  induction d; cbn [uint_units digits_value Pos.of_uint];
    [done | exact IHd | rewrite <- digits_value_acc; f_equal ..].
Qed.

Lemma uint_units_digits (d : Decimal.uint) :
  Forall (λ c, is_digit c = true) (uint_units d).
Proof. induction d; cbn [uint_units]; by constructor. Qed.

Lemma span_digits_app (ds rest : jsstring) :
  Forall (λ c, is_digit c = true) ds → ends_numeral rest →
  span_digits (ds ++ rest) = (ds, rest).
Proof.
  intros Hds Hrest. induction Hds as [|c ds Hc _ IH].
  - destruct rest as [|c rest]; [done|]. destruct Hrest as [Hc _].
    change ([] ++ c :: rest) with (c :: rest). cbn [span_digits]. by rewrite Hc.
  - change ((c :: ds) ++ rest) with (c :: (ds ++ rest)).
    cbn [span_digits]. by rewrite Hc, IH.
Qed.

Lemma pos_to_uint_shape (p : positive) :
  ∃ c ds, uint_units (Pos.to_uint p) = c :: ds
          ∧ (c =? 48) = false ∧ (c =? 45) = false ∧ is_digit c = true.
Proof.
  pose proof (DecimalPos.Unsigned.to_of (Pos.to_uint p)) as Hnorm.
  rewrite DecimalPos.Unsigned.of_to in Hnorm. cbn [N.to_uint] in Hnorm.
  assert (Decimal.nzhead (Pos.to_uint p) = Pos.to_uint p) as Hhead.
  { rewrite <- DecimalFacts.unorm_nzhead; [done|].
    intros Hnil%DecimalFacts.unorm_0. rewrite <- Hnorm in Hnil.
    by apply (DecimalPos.Unsigned.to_uint_nonzero p). }
  pose proof (DecimalPos.Unsigned.to_uint_nonnil p) as Hnonnil.
  destruct (Pos.to_uint p) as [|d|d|d|d|d|d|d|d|d|d] eqn:Hd; [done| |..];
    [|cbn [uint_units]; by eexists _, _ ..].
  exfalso. by apply (DecimalFacts.nzhead_nonzero (Decimal.D0 d) d).
Qed.

Lemma parse_number_tail (rest : jsstring) :
  ends_numeral rest →
  parse_fraction rest = Some (false, rest)
  ∧ parse_exponent rest = Some (false, rest).
Proof.
  destruct rest as [|c rest]; [done|]. intros (_ & H46 & H101 & H69).
  unfold parse_fraction, parse_exponent. split.
  - by destruct (N.eqb_spec c 46).
  - destruct (N.eqb_spec c 101); [done|]. by destruct (N.eqb_spec c 69).
Qed.

Lemma parse_unsigned_digits (negative : bool) (s : jsstring) (c : N)
    (ds rest : jsstring) :
  Forall (λ c, is_digit c = true) (c :: ds) → ends_numeral rest →
  (c =? 48) && truthy ds = false →
  parse_unsigned negative s ((c :: ds) ++ rest)
  = Ok (number_of_numeral negative (Z.of_N (digits_value 0 (c :: ds)))
          (take (length s - length rest) s)) rest.
Proof.
  intros Hds Hrest Hzero.
  destruct (parse_number_tail rest Hrest) as [Hfrac Hexp].
  unfold parse_unsigned. rewrite span_digits_app by done.
  by rewrite Hzero, Hfrac, Hexp.
Qed.

Lemma parse_number_not_minus (c : N) (s : jsstring) :
  (c =? 45) = false → parse_number (c :: s) = parse_unsigned false (c :: s) (c :: s).
Proof. intros Hc. unfold parse_number. by rewrite Hc. Qed.

(** The numeral of an integer parses to the value of a numeral with
    its sign and its magnitude. *)
Lemma parse_Number_toString (z : Z) (rest : jsstring) :
  ends_numeral rest →
  ∃ lexeme,
    parse_number (Number_toString z ++ rest)
    = Ok (number_of_numeral (z <? 0)%Z (Z.abs z) lexeme) rest.
Proof.
  intros Hrest. unfold Number_toString. destruct z as [|p|p]; cbn [Z.to_int].
  - eexists. etrans; [exact (parse_number_not_minus 48 rest eq_refl)|].
    apply (parse_unsigned_digits false _ 48 [] rest);
      [by repeat constructor | done | done].
  - destruct (pos_to_uint_shape p) as (c & ds & Heq & H48 & H45 & Hc).
    pose proof (uint_units_digits (Pos.to_uint p)) as Hall.
    pose proof (digits_value_uint (Pos.to_uint p)) as Hval.
    rewrite DecimalPos.Unsigned.of_to in Hval. rewrite Heq in *.
    eexists. etrans; [exact (parse_number_not_minus c (ds ++ rest) H45)|].
    etrans; [apply (parse_unsigned_digits false _ c ds rest);
             [done | done | by rewrite H48]|].
    by rewrite Hval.
  - destruct (pos_to_uint_shape p) as (c & ds & Heq & H48 & H45 & Hc).
    pose proof (uint_units_digits (Pos.to_uint p)) as Hall.
    pose proof (digits_value_uint (Pos.to_uint p)) as Hval.
    rewrite DecimalPos.Unsigned.of_to in Hval. rewrite Heq in *.
    eexists. etrans; [apply (parse_unsigned_digits true _ c ds rest);
             [done | done | by rewrite H48]|].
    by rewrite Hval.
Qed.

Lemma number_of_numeral_safe (z : Z) (lexeme : jsstring) :
  (- 2 ^ 53 ≤ z ≤ 2 ^ 53)%Z →
  number_of_numeral (z <? 0)%Z (Z.abs z) lexeme = JNumber (Integer z).
Proof.
  intros Hz. unfold number_of_numeral.
  destruct (Z.leb_spec (Z.abs z) (2 ^ 53)) as [_|?]; [|lia].
  destruct (Z.ltb_spec z 0); do 2 f_equal; lia.
Qed.

(** *** Entries and histories through [JSON.stringify] and [JSON.parse] *)

Lemma QuoteJSONString_app (s rest : jsstring) :
  QuoteJSONString s ++ rest = 34 :: (quote_units s ++ 34 :: rest).
Proof. unfold QuoteJSONString. by rewrite <- app_comm_cons, <- app_assoc. Qed.

Lemma parse_value_string (fuel : nat) (s rest : jsstring) :
  parse_value (S fuel) (QuoteJSONString s ++ rest) = Ok (JString s) rest.
Proof.
  rewrite QuoteJSONString_app. cbn [parse_value skip_ws].
  change (is_json_ws 34) with false. change (34 =? 34) with true. cbv iota.
  by rewrite parse_QuoteJSONString.
Qed.

Lemma Number_toString_head (z : Z) :
  ∃ c t, Number_toString z = c :: t ∧ (48 ≤ c ≤ 57 ∨ c = 45).
Proof.
  unfold Number_toString. destruct z as [|p|p]; cbn [Z.to_int].
  - exists 48, []. split; [done | lia].
  - destruct (pos_to_uint_shape p) as (c & ds & -> & _ & _ & Hc).
    exists c, ds. split; [done|]. left.
    apply andb_true_iff in Hc as [?%N.leb_le ?%N.leb_le]. lia.
  - eexists 45, _. split; [done | by right].
Qed.

Lemma parse_value_numeral_start (fuel : nat) (c : N) (s : jsstring) :
  48 ≤ c ≤ 57 ∨ c = 45 →
  parse_value (S fuel) (c :: s) = parse_number (c :: s).
Proof.
  intros Hc.
  assert (c = 45 ∨ c = 48 ∨ c = 49 ∨ c = 50 ∨ c = 51 ∨ c = 52 ∨ c = 53
          ∨ c = 54 ∨ c = 55 ∨ c = 56 ∨ c = 57) as H by lia.
  repeat (destruct H as [->|H]; [reflexivity|]). by subst.
Qed.

Lemma parse_value_number (fuel : nat) (n : number) (rest : jsstring) :
  ends_numeral rest →
  ∃ v, parse_value (S fuel) (serialize_number n ++ rest) = Ok v rest
       ∧ (safe_integer n → v = JNumber n).
Proof.
  intros Hrest. destruct n as [z|negative]; cbn [serialize_number].
  - destruct (parse_Number_toString z rest Hrest) as [lexeme Hparse].
    eexists. split.
    + rewrite <- Hparse.
      destruct (Number_toString_head z) as (c & t & -> & Hc).
      by apply parse_value_numeral_start.
    + intros Hsafe. by apply number_of_numeral_safe.
  - exists JNull. by split.
Qed.

Lemma skip_ws_cons (c : N) (s : jsstring) :
  is_json_ws c = false → skip_ws (c :: s) = c :: s.
Proof. intros H. cbn [skip_ws]. by rewrite H. Qed.

Lemma after_cons (c : N) (s : jsstring) :
  is_json_ws c = false → after c (c :: s) = Some s.
Proof. intros H. unfold after. by rewrite skip_ws_cons, N.eqb_refl. Qed.

Lemma after_other (c d : N) (s : jsstring) :
  is_json_ws d = false → (d =? c) = false → after c (d :: s) = None.
Proof. intros H Hd. unfold after. by rewrite skip_ws_cons, Hd. Qed.

Lemma parse_members_S (fuel : nat) (s : jsstring) :
  parse_members (S fuel) s
  = match after 34 s with
    | Some s1 =>
        parsed_bind (parse_string_units s1) (λ k s2,
          match after 58 s2 with
          | Some s3 =>
              parsed_bind (parse_value fuel s3) (λ v s4,
                match after 44 s4 with
                | Some s5 => parsed_map (cons (k, v)) (parse_members fuel s5)
                | None =>
                    match after 125 s4 with
                    | Some s5 => Ok [(k, v)] s5
                    | None => SyntaxError
                    end
                end)
          | None => SyntaxError
          end)
    | None => SyntaxError
    end.
Proof. done. Qed.

Lemma parse_elements_S (fuel : nat) (s : jsstring) :
  parse_elements (S fuel) s
  = parsed_bind (parse_value fuel s) (λ v s1,
      match after 44 s1 with
      | Some s2 => parsed_map (cons v) (parse_elements fuel s2)
      | None =>
          match after 93 s1 with
          | Some s2 => Ok [v] s2
          | None => SyntaxError
          end
      end).
Proof. done. Qed.

Lemma parse_value_S (fuel : nat) (s : jsstring) :
  parse_value (S fuel) s
  = match skip_ws s with
    | [] => SyntaxError
    | c :: s' =>
        if c =? 34 then parsed_map JString (parse_string_units s')
        else if c =? 91 then
          match after 93 s' with
          | Some s'' => Ok (JArray []) s''
          | None => parsed_map JArray (parse_elements fuel s')
          end
        else if c =? 123 then
          match after 125 s' with
          | Some s'' => Ok (JObject []) s''
          | None => parsed_map JObject (parse_members fuel s')
          end
        else if c =? 116 then expect (js "rue") (JBool true) s'
        else if c =? 102 then expect (js "alse") (JBool false) s'
        else if c =? 110 then expect (js "ull") JNull s'
        else parse_number (c :: s')
    end.
Proof. done. Qed.

Lemma parse_value_object (fuel : nat) (k more : jsstring) :
  parse_value (S fuel) (123 :: QuoteJSONString k ++ more)
  = parsed_map JObject (parse_members fuel (QuoteJSONString k ++ more)).
Proof. by rewrite QuoteJSONString_app. Qed.

Lemma parse_members_string (fuel : nat) (k v more : jsstring) :
  parse_members (S (S fuel))
    (QuoteJSONString k ++ 58 :: QuoteJSONString v ++ 44 :: more)
  = parsed_map (cons (k, JString v)) (parse_members (S fuel) more).
Proof.
  rewrite (parse_members_S (S fuel)), QuoteJSONString_app.
  rewrite after_cons, parse_QuoteJSONString by done. cbn [parsed_bind].
  rewrite after_cons, parse_value_string by done. cbn [parsed_bind].
  by rewrite after_cons.
Qed.

Lemma parse_members_last_number (fuel : nat) (k : jsstring) (n : number)
    (rest : jsstring) :
  ∃ v, parse_members (S (S fuel))
         (QuoteJSONString k ++ 58 :: serialize_number n ++ 125 :: rest)
       = Ok [(k, v)] rest
       ∧ (safe_integer n → v = JNumber n).
Proof.
  destruct (parse_value_number fuel n (125 :: rest)) as (v & Hv & Hsafe);
    [by repeat split|].
  exists v. split; [|done].
  rewrite (parse_members_S (S fuel)), QuoteJSONString_app.
  rewrite after_cons, parse_QuoteJSONString by done. cbn [parsed_bind].
  rewrite after_cons, Hv by done.
  cbn [parsed_bind]. by rewrite after_other, after_cons.
Qed.

Lemma stringify_entry_app (e : QrCodeEntry) (rest : jsstring) :
  stringify_entry e ++ rest
  = 123 :: QuoteJSONString (js "id") ++ 58 :: QuoteJSONString (id e)
    ++ 44 :: QuoteJSONString (js "url") ++ 58 :: QuoteJSONString (url e)
    ++ 44 :: QuoteJSONString (js "dataUrl") ++ 58 :: QuoteJSONString (dataUrl e)
    ++ 44 :: QuoteJSONString (js "createdAt")
    ++ 58 :: serialize_number (createdAt e) ++ 125 :: rest.
Proof.
  unfold stringify_entry.
  repeat (rewrite <- app_comm_cons || rewrite <- app_assoc). done.
Qed.

Lemma parse_value_entry (fuel : nat) (e : QrCodeEntry) (rest : jsstring) :
  (6 ≤ fuel)%nat →
  ∃ v, parse_value fuel (stringify_entry e ++ rest) = Ok v rest ∧ reads_as e v.
Proof.
  intros Hfuel. do 6 (destruct fuel as [|fuel]; [lia|]). clear Hfuel.
  destruct (parse_members_last_number fuel (js "createdAt") (createdAt e) rest)
    as (t & Ht & Hsafe).
  exists (entry_json_with e t). split; [|by exists t].
  rewrite stringify_entry_app.
  by rewrite parse_value_object, !parse_members_string, Ht.
Qed.

Lemma parse_elements_history (h : list QrCodeEntry) (fuel : nat)
    (rest : jsstring) :
  h ≠ [] → (length h + 6 ≤ fuel)%nat →
  ∃ vs, parse_elements fuel (stringify_elements h ++ 93 :: rest) = Ok vs rest
        ∧ Forall2 reads_as h vs.
Proof.
  revert fuel. induction h as [|e h IH]; intros fuel Hne Hfuel; [done|].
  destruct fuel as [|fuel]; [simpl in Hfuel; lia|]. simpl in Hfuel.
  rewrite parse_elements_S. destruct h as [|e' h].
  - cbn [stringify_elements].
    destruct (parse_value_entry fuel e (93 :: rest)) as (v & -> & Hv); [lia|].
    exists [v]. split; [|by repeat constructor].
    cbn [parsed_bind]. by rewrite after_other, after_cons.
  - change (stringify_elements (e :: e' :: h))
      with (stringify_entry e ++ 44 :: stringify_elements (e' :: h)).
    rewrite <- app_assoc, <- app_comm_cons.
    destruct (parse_value_entry fuel e
                (44 :: stringify_elements (e' :: h) ++ 93 :: rest))
      as (v & -> & Hv); [lia|].
    destruct (IH fuel) as (vs & Hvs & Hall); [done | simpl in *; lia|].
    exists (v :: vs). split; [|by constructor].
    cbn [parsed_bind]. rewrite after_cons by done. by rewrite Hvs.
Qed.

Lemma stringify_entry_length (e : QrCodeEntry) :
  (7 ≤ length (stringify_entry e))%nat.
Proof.
  unfold stringify_entry, QuoteJSONString.
  repeat (rewrite length_app || rewrite length_cons). lia.
Qed.

Lemma stringify_elements_length (h : list QrCodeEntry) :
  (7 * length h ≤ length (stringify_elements h))%nat.
Proof.
  induction h as [|e h IH]; [done|].
  pose proof (stringify_entry_length e). destruct h as [|e' h].
  - simpl. lia.
  - change (stringify_elements (e :: e' :: h))
      with (stringify_entry e ++ 44 :: stringify_elements (e' :: h)).
    rewrite length_app, length_cons. simpl in *. lia.
Qed.

Lemma stringify_elements_head (h : list QrCodeEntry) :
  h ≠ [] → ∃ t, stringify_elements h = 123 :: t.
Proof.
  destruct h as [|e [|e' h]]; [done| |]; intros _; by eexists.
Qed.

Lemma as_entry_json (e : QrCodeEntry) : as_entry (entry_json e) = Some e.
Proof. by destruct e. Qed.

Lemma as_history_json (h : list QrCodeEntry) :
  as_history (history_json h) = Some h.
Proof. apply mapM_fmap_Some. intros e. apply as_entry_json. Qed.

(** [JSON.parse] of the text [JSON.stringify] writes for a history is
    an array of what its entries read as. *)
Lemma JSON_parse_stringify_reads (h : list QrCodeEntry) :
  ∃ vs, JSON_parse (JSON_stringify h) = Returns (JArray vs)
        ∧ Forall2 reads_as h vs.
Proof.
  unfold JSON_parse, parse_fuel, JSON_stringify.
  destruct (decide (h = [])) as [->|Hne]; [by exists []|].
  destruct (stringify_elements_head h Hne) as [t Ht].
  pose proof (stringify_elements_length h) as Hlen.
  destruct (parse_elements_history h (2 * length (91 :: stringify_elements h ++ [93]))
              [] Hne) as (vs & Hvs & Hall).
  { rewrite length_cons, length_app. destruct h; [done|]. simpl in *. lia. }
  exists vs. split; [|done].
  rewrite Nat.add_1_r, parse_value_S, skip_ws_cons by done.
  change (91 =? 34) with false. change (91 =? 91) with true. cbv iota.
  rewrite Ht, <- app_comm_cons, after_other by done.
  rewrite app_comm_cons, <- Ht, Hvs. done.
Qed.

Lemma reads_as_safe (h : list QrCodeEntry) (vs : list json) :
  safe_timestamps h → Forall2 reads_as h vs → vs = entry_json <$> h.
Proof.
  intros Hsafe Hall. induction Hall as [|e v h vs (t & -> & Ht) _ IH];
    [done|].
  apply Forall_cons in Hsafe as [He Hsafe].
  rewrite fmap_cons, <- IH by done. unfold entry_json. by rewrite Ht.
Qed.

Lemma JSON_parse_stringify (h : list QrCodeEntry) :
  safe_timestamps h → JSON_parse (JSON_stringify h) = Returns (history_json h).
Proof.
  intros Hsafe. destruct (JSON_parse_stringify_reads h) as (vs & -> & Hall).
  unfold history_json. by rewrite (reads_as_safe h vs).
Qed.

Lemma read_history_stringify (h : list QrCodeEntry) :
  safe_timestamps h →
  read_history (Returns (Some (JSON_stringify h))) = LoadedHistory h.
Proof.
  intros Hsafe. unfold read_history.
  change (truthy (JSON_stringify h)) with true. cbv iota.
  by rewrite JSON_parse_stringify, as_history_json.
Qed.






(** *** The parser on some texts *)

Example parse_accepts_white_space_and_escapes :
  JSON_parse (json_text " [ 1 , -20, { 'aA\n' : [ true , null ] } ] ")
  = Returns (JArray [JNumber 1; JNumber (-20);
                     JObject [([97; 65; 10], JArray [JBool true; JNull])]]).
Proof. vm_compute. reflexivity. Qed.

Example parse_keeps_other_numerals :
  JSON_parse (json_text "2.5e3") = Returns (JNumeral (js "2.5e3")).
Proof. vm_compute. reflexivity. Qed.

Example parse_rejects_malformed_texts :
  Forall (λ text, JSON_parse (json_text text) = Throws)
    ["[1,]"; "[01]"; "{'a':1,}"; "[1] x"; ""; "-"; "1."; "tru"; "['a]";
     "{'url':}"]%string.
Proof. repeat constructor. Qed.

Example stored_object_is_not_a_history :
  read_history (Returns (Some (json_text "{'url':'https://example.com'}")))
  = Untyped.
Proof. vm_compute. reflexivity. Qed.

Example stored_garbage_is_not_loaded :
  load_effect (Returns (Some (json_text "[{'id':"))) initial_state
  = Some initial_state.
Proof. vm_compute. reflexivity. Qed.

(** *** The parser never runs out of fuel *)

Section Fuel.
Context {A B : Type}.
Implicit Types (p : parsed A) (n m : nat) (s : jsstring).

Lemma leaves_at_most_mono n m p :
  (n ≤ m)%nat → leaves_at_most n p → leaves_at_most m p.
Proof. destruct p; simpl; [lia | done..]. Qed.

Lemma leaves_at_most_map (f : A → B) n p :
  leaves_at_most n p → leaves_at_most n (parsed_map f p).
Proof. by destruct p. Qed.

Lemma leaves_at_most_bind (k : A → jsstring → parsed B) n m p :
  leaves_at_most n p →
  (∀ a rest, (length rest ≤ n)%nat → leaves_at_most m (k a rest)) →
  leaves_at_most m (parsed_bind p k).
Proof. destruct p; simpl; [auto | done..]. Qed.
End Fuel.

Lemma skip_ws_length (s : jsstring) : (length (skip_ws s) ≤ length s)%nat.
Proof.
  induction s as [|c s IH]; [done|]. cbn [skip_ws].
  destruct (is_json_ws c); simpl in *; lia.
Qed.

Lemma after_length (c : N) (s rest : jsstring) :
  after c s = Some rest → (S (length rest) ≤ length s)%nat.
Proof.
  unfold after. pose proof (skip_ws_length s) as Hlen.
  destruct (skip_ws s) as [|d t]; [done|].
  destruct (d =? c); [|done]. intros [= <-]. simpl in Hlen. lia.
Qed.

Lemma parse_string_units_fuel_bounded (n : nat) (s : jsstring) :
  (length s ≤ n)%nat →
  leaves_at_most (pred (length s)) (parse_string_units s).
Proof.
  revert s. induction n as [|n IH]; intros s Hlen.
  - by destruct s; [|simpl in Hlen; lia].
  - destruct s as [|c s]; [done|]. simpl in Hlen. cbn [parse_string_units].
    destruct (c =? 34); [simpl; lia|].
    destruct (c =? 92).
    + destruct s as [|e s]; [done|]. simpl in Hlen.
      destruct (e =? 117).
      * destruct s as [|x [|y [|z [|w s]]]]; try done.
        destruct (hex4 x y z w); [|done].
        apply leaves_at_most_map.
        eapply leaves_at_most_mono; [|apply IH; simpl in Hlen; lia].
        simpl. lia.
      * destruct (unescape e); [|done].
        apply leaves_at_most_map.
        eapply leaves_at_most_mono; [|apply IH; lia]. simpl. lia.
    + destruct (c <? 32); [done|].
      apply leaves_at_most_map.
      eapply leaves_at_most_mono; [|apply IH; lia]. simpl. lia.
Qed.

Lemma parse_string_units_fuel (s : jsstring) :
  leaves_at_most (pred (length s)) (parse_string_units s).
Proof. by apply (parse_string_units_fuel_bounded (length s)). Qed.

Lemma expect_fuel (word : jsstring) (v : json) (s : jsstring) :
  leaves_at_most (length s) (expect word v s).
Proof.
  revert s. induction word as [|w word IH]; intros s; cbn [expect];
    [simpl; lia|].
  destruct s as [|c s]; [done|]. destruct (c =? w); [|done].
  eapply leaves_at_most_mono; [|apply IH]. simpl. lia.
Qed.

Lemma span_digits_length (s ds rest : jsstring) :
  span_digits s = (ds, rest) → length s = (length ds + length rest)%nat.
Proof.
  revert ds rest. induction s as [|c s IH]; intros ds rest; cbn [span_digits].
  - by intros [= <- <-].
  - destruct (is_digit c); [|by intros [= <- <-]].
    destruct (span_digits s) as [ds' rest'] eqn:Hspan.
    intros [= <- <-]. simpl. by rewrite (IH ds' rest').
Qed.

Lemma parse_fraction_length (s rest : jsstring) (b : bool) :
  parse_fraction s = Some (b, rest) → (length rest ≤ length s)%nat.
Proof.
  unfold parse_fraction. destruct s as [|c s]; [by intros [= <- <-]|].
  destruct (c =? 46); [|by intros [= <- <-]].
  destruct (span_digits s) as [[|d ds] r] eqn:Hspan; [done|].
  intros [= <- <-]. apply span_digits_length in Hspan. simpl in *. lia.
Qed.

Lemma parse_exponent_length (s rest : jsstring) (b : bool) :
  parse_exponent s = Some (b, rest) → (length rest ≤ length s)%nat.
Proof.
  unfold parse_exponent. destruct s as [|c s]; [by intros [= <- <-]|].
  destruct ((c =? 101) || (c =? 69)); [|by intros [= <- <-]].
  match goal with
  | |- context [span_digits ?t] =>
      assert (length t ≤ length s)%nat as Hsign
        by (destruct s as [|g t']; [done|];
            destruct ((g =? 43) || (g =? 45)); simpl; lia);
      destruct (span_digits t) as [[|d ds] r] eqn:Hspan; [done|]
  end.
  intros [= <- <-]. apply span_digits_length in Hspan. simpl in *. lia.
Qed.

Lemma parse_unsigned_fuel (negative : bool) (s s1 : jsstring) :
  leaves_at_most (pred (length s1)) (parse_unsigned negative s s1).
Proof.
  unfold parse_unsigned.
  destruct (span_digits s1) as [[|d ds] s2] eqn:Hspan; [done|].
  apply span_digits_length in Hspan.
  destruct ((d =? 48) && truthy ds); [done|].
  destruct (parse_fraction s2) as [[hf s3]|] eqn:Hfrac; [|done].
  apply parse_fraction_length in Hfrac.
  destruct (parse_exponent s3) as [[he s4]|] eqn:Hexp; [|done].
  apply parse_exponent_length in Hexp.
  destruct (hf || he); simpl in *; lia.
Qed.

Lemma parse_number_fuel (s : jsstring) :
  leaves_at_most (pred (length s)) (parse_number s).
Proof.
  unfold parse_number. destruct s as [|c s]; [done|].
  destruct (c =? 45); [|apply parse_unsigned_fuel].
  eapply leaves_at_most_mono; [|apply parse_unsigned_fuel]. simpl. lia.
Qed.

(** With fuel above twice the length of the text, each of the three
    parsers ends with a value or a syntax error, and a value consumes
    part of the text. *)
Lemma parse_fuel_enough (fuel : nat) :
  ∀ s,
    ((2 * length s + 1 ≤ fuel)%nat →
     leaves_at_most (pred (length s)) (parse_value fuel s))
    ∧ ((2 * length s + 2 ≤ fuel)%nat →
       leaves_at_most (pred (length s)) (parse_elements fuel s))
    ∧ ((2 * length s + 2 ≤ fuel)%nat →
       leaves_at_most (pred (length s)) (parse_members fuel s)).
Proof.
  induction fuel as [|fuel IH]; intros s; [repeat split; lia|].
  split; [|split]; intros Hfuel.
  - rewrite parse_value_S. pose proof (skip_ws_length s) as Hws.
    destruct (skip_ws s) as [|c s']; [done|]. simpl in Hws.
    destruct (c =? 34).
    { apply leaves_at_most_map.
      eapply leaves_at_most_mono; [|apply parse_string_units_fuel]. lia. }
    destruct (c =? 91).
    { destruct (after 93 s') as [s''|] eqn:Hafter.
      - apply after_length in Hafter. simpl. lia.
      - apply leaves_at_most_map.
        eapply leaves_at_most_mono; [|apply IH]; lia. }
    destruct (c =? 123).
    { destruct (after 125 s') as [s''|] eqn:Hafter.
      - apply after_length in Hafter. simpl. lia.
      - apply leaves_at_most_map.
        eapply leaves_at_most_mono; [|apply IH]; lia. }
    destruct (c =? 116);
      [eapply leaves_at_most_mono; [|apply expect_fuel]; lia|].
    destruct (c =? 102);
      [eapply leaves_at_most_mono; [|apply expect_fuel]; lia|].
    destruct (c =? 110);
      [eapply leaves_at_most_mono; [|apply expect_fuel]; lia|].
    eapply leaves_at_most_mono; [|apply parse_number_fuel]. simpl. lia.
  - rewrite parse_elements_S.
    eapply leaves_at_most_bind; [apply IH; lia|].
    intros v s1 Hs1. cbv beta.
    destruct (after 44 s1) as [s2|] eqn:Hcomma.
    + apply after_length in Hcomma. apply leaves_at_most_map.
      eapply leaves_at_most_mono; [|apply IH]; lia.
    + destruct (after 93 s1) as [s2|] eqn:Hclose; [|done].
      apply after_length in Hclose. simpl. lia.
  - rewrite parse_members_S.
    destruct (after 34 s) as [s1|] eqn:Hquote; [|done].
    apply after_length in Hquote.
    eapply leaves_at_most_bind; [apply parse_string_units_fuel|].
    intros k s2 Hs2. cbv beta.
    destruct (after 58 s2) as [s3|] eqn:Hcolon; [|done].
    apply after_length in Hcolon.
    eapply leaves_at_most_bind; [apply IH; lia|].
    intros v s4 Hs4. cbv beta.
    destruct (after 44 s4) as [s5|] eqn:Hcomma.
    + apply after_length in Hcomma. apply leaves_at_most_map.
      eapply leaves_at_most_mono; [|apply IH]; lia.
    + destruct (after 125 s4) as [s5|] eqn:Hclose; [|done].
      apply after_length in Hclose. simpl. lia.
Qed.

(** [JSON_parse] gives the parser enough fuel for any text. *)
Lemma parse_value_fuel (text : jsstring) :
  parse_value (parse_fuel text) text ≠ OutOfFuel.
Proof.
  pose proof (proj1 (parse_fuel_enough (parse_fuel text) text)) as H.
  unfold parse_fuel in *. intros Hout. rewrite Hout in H. apply H. lia.
Qed.

(** *** The history invariant *)


Lemma store_within_None : store_within None.
Proof. intros h H. discriminate H. Qed.





Lemma install_history (h : list QrCodeEntry) (st : AppState) :
  history (install h st) = h.
Proof. by destruct h. Qed.



Lemma generate_start_history (env : GenerateEnv) (st : AppState) :
  match generate_start env st with
  | Aborted st' | Awaiting st' _ => history st' = history st
  end.
Proof. unfold generate_start. by destruct (rejects _ _). Qed.

Lemma generate_settle_history (env : GenerateEnv) (captured : jsstring)
    (st : AppState) :
  history (generate_settle env captured st)
  = match toDataURL env with
    | Returns payload =>
        insert (mkEntry (toISOString env) captured payload (Date_now env))
               (history st)
    | Throws => history st
    end.
Proof. unfold generate_settle. by destruct (toDataURL env). Qed.







(** ** Further properties of the code *)

(** *** More on insertion (line 216) *)

Lemma filter_other_urls_length (u : jsstring) (h : list QrCodeEntry) :
  NoDup (url <$> h) → u ∈ url <$> h →
  S (length (filter (λ item, url item ≠ u) h)) = length h.
Proof.
  induction h as [|x h IH]; intros Hnd Hin; [by apply elem_of_nil in Hin|].
  rewrite fmap_cons in Hnd, Hin. apply NoDup_cons in Hnd as [Hx Hnd].
  destruct (decide (url x = u)) as [<-|Hne].
  - rewrite filter_cons_False by (by intros ?).
    rewrite filter_all_pass; [done|].
    apply Forall_forall. intros y Hy Heq. apply Hx. rewrite <- Heq.
    by apply (list_elem_of_fmap_2 url).
  - rewrite filter_cons_True by done. simpl. f_equal. apply IH; [done|].
    apply elem_of_cons in Hin as [Heq|Hin]; [by subst|done].
Qed.

(** X1: generating a URL again replaces the earlier entry for it as if
    that entry had never been inserted; in particular inserting the
    same entry twice is the same as inserting it once. *)
Theorem insert_replaces_same_url (e1 e2 : QrCodeEntry) (h : list QrCodeEntry) :
  url e1 = url e2 → insert e2 (insert e1 h) = insert e2 h.
Proof.
  intros Heq. destruct e1 as [i1 u1 d1 t1], e2 as [i2 u2 d2 t2].
  simpl in Heq. subst u2. unfold insert. cbn [url]. f_equal.
  rewrite filter_cons_False by (by intros ?).
  rewrite filter_all_pass
    by exact (insert_others_differ (mkEntry i1 u1 d1 t1) h).
  by rewrite take_take.
Qed.

Lemma insert_replaces_same_url_witness :
  insert (sample_entry 0) (insert (sample_entry 0) [sample_entry 1])
  = insert (sample_entry 0) [sample_entry 1].
Proof. apply insert_replaces_same_url. reflexivity. Defined.

(** X2: behind the new entry, insertion keeps entries of the previous
    history in their previous order, none of them with the url of the
    new entry; it never reorders and never adds anything else. *)
Theorem insert_keeps_order (e : QrCodeEntry) (h : list QrCodeEntry) :
  ∃ k, insert e h = e :: k ∧ k `sublist_of` h
       ∧ Forall (λ item, url item ≠ url e) k.
Proof.
  eexists. split; [reflexivity|]. split; [|apply insert_others_differ].
  etrans; [apply sublist_take | apply sublist_filter].
Qed.

(** X3: on a history of at most 20 entries with distinct urls,
    inserting a url that is already there drops only the old entry for
    it, and the length stays; inserting a url that is not there drops
    nothing while there are fewer than 20 entries, and otherwise only
    what lies beyond the first 19. *)
Theorem insert_evicts_only_when_full (e : QrCodeEntry) (h : list QrCodeEntry) :
  bounded_unique h →
  (url e ∈ url <$> h →
   insert e h = e :: filter (λ item, url item ≠ url e) h
   ∧ length (insert e h) = length h)
  ∧ (url e ∉ url <$> h →
     insert e h = e :: take 19 h
     ∧ ((length h < 20)%nat → insert e h = e :: h)).
Proof.
  intros [Hlen Hnd]. split.
  - intros Hin. pose proof (filter_other_urls_length (url e) h Hnd Hin) as Hf.
    unfold insert. rewrite take_ge by lia. split; [done|]. simpl. lia.
  - intros Hfresh. unfold insert. rewrite filter_all_pass.
    + split; [done|]. intros Hlt. by rewrite take_ge by lia.
    + apply Forall_forall. intros x Hx Heq. apply Hfresh. rewrite <- Heq.
      by apply (list_elem_of_fmap_2 url).
Qed.

Lemma insert_evicts_only_when_full_witness :
  let h := sample_entry <$> seq 0 20 in
  (insert (sample_entry 7) h
   = sample_entry 7 :: filter (λ item, url item ≠ url (sample_entry 7)) h
   ∧ length (insert (sample_entry 7) h) = length h)
  ∧ insert (sample_entry 25) h = sample_entry 25 :: take 19 h.
Proof.
  assert (bounded_unique (sample_entry <$> seq 0 20)) as Hinv.
  { split; [vm_compute; lia|]. apply (bool_decide_unpack _). vm_compute. exact I. }
  split.
  - apply (proj1 (insert_evicts_only_when_full (sample_entry 7) _ Hinv)).
    apply (bool_decide_unpack _). vm_compute. exact I.
  - apply (proj2 (insert_evicts_only_when_full (sample_entry 25) _ Hinv)).
    apply (bool_decide_unpack _). vm_compute. exact I.
Defined.

(** X4: after any number of insertions with pairwise distinct urls,
    into any history, the history starts with the inserted entries,
    newest first, as far as 20 places go. *)
Theorem insert_all_starts_with_newest (es h : list QrCodeEntry) :
  NoDup (url <$> es) →
  take (length es `min` 20) (insert_all es h) = take 20 (reverse es).
Proof.
  intros Hnd. destruct (insert_all_newest_first es h Hnd) as [t ->].
  apply take_app_length'. rewrite length_take, length_reverse. lia.
Qed.

Lemma insert_all_starts_with_newest_witness :
  let es := sample_entry <$> seq 0 3 in
  take (length es `min` 20) (insert_all es [sample_entry 9; sample_entry 1])
  = take 20 (reverse es).
Proof.
  apply insert_all_starts_with_newest.
  apply (bool_decide_unpack _). vm_compute. exact I.
Defined.

(** *** What every state of a session satisfies *)

Lemma opened_steady (store : storage) : steady (opened store).
Proof. repeat split. by left. Qed.

Lemma mount_steady (access written1 written2 : outcome unit)
    (sys sys' : System) :
  mount access written1 written2 sys = Some sys' → steady sys'.
Proof.
  unfold mount, load_effect.
  destruct (read_history (getItem access (stored sys))) as [|h|];
    [| |done]; intros [= <-].
  - repeat split. by left.
  - destruct h as [|first h]; repeat split; by left.
Qed.

Lemma not_loading_not_awaited (sys : System) :
  loading_matches sys → isLoading (state sys) = false → awaited sys = None.
Proof.
  unfold loading_matches. destruct (awaited sys) as [[env u]|]; [|done].
  intros (Hon & _) Hoff. congruence.
Qed.

Lemma dispatch_steady (ev : event) (sys sys' : System) :
  steady sys → dispatch ev sys = Some sys' → steady sys'.
Proof.
  intros (Hsel & Hload & Hmsg).
  destruct ev as [a w1 w2|v|env|w|i|c w]; cbn [dispatch].
  - apply mount_steady.
  - destruct (isLoading (state sys)) eqn:Hoff; [done|]. intros [= <-].
    pose proof (not_loading_not_awaited sys Hload Hoff) as Hnone.
    unfold steady, loading_matches in *. cbn [state awaited].
    by rewrite Hnone in *.
  - destruct (isLoading (state sys)) eqn:Hoff; [done|]. cbn [orb].
    destruct (negb _); [done|]. intros [= <-].
    pose proof (not_loading_not_awaited sys Hload Hoff) as Hnone.
    unfold generate_click, generate_start.
    destruct (rejects (new_URL env) (urlInput (state sys))) eqn:Hrej.
    + unfold steady, loading_matches. cbn [state awaited].
      rewrite Hnone. repeat split; [done|done|]. right. by left.
    + unfold steady, loading_matches. cbn [state awaited].
      repeat split; [done| |by left]. unfold accepts. by rewrite Hrej.
  - unfold settle. destruct (awaited sys) as [[env u]|] eqn:Hwait; [|done].
    intros [= <-]. unfold loading_matches in Hload. rewrite Hwait in Hload.
    destruct Hload as (_ & _ & _ & Herr).
    unfold steady, loading_matches, generate_settle. cbn [state awaited].
    destruct (toDataURL env) as [payload|].
    + repeat split; [|by left; rewrite <- Herr].
      unfold selection_in_history. simpl. by left.
    + repeat split; [done|]. right. by right.
  - destruct (history (state sys) !! i) as [item|] eqn:Hitem; [|done].
    intros [= <-]. repeat split; [|done|done].
    unfold selection_in_history. simpl. by eapply list_elem_of_lookup_2.
  - destruct (history (state sys)) eqn:Hhist; [done|]. intros [= <-].
    unfold clear_click, handleClearHistory. destruct c; [|done].
    by repeat split.
Qed.

Lemma run_steady (evs : list event) (sys sys' : System) :
  steady sys → run evs sys = Some sys' → steady sys'.
Proof.
  revert sys. induction evs as [|ev evs IH]; intros sys Hsys; cbn [run].
  - by intros [= <-].
  - destruct (dispatch ev sys) as [sys1|] eqn:Hstep; [|done].
    cbn. intros Hrun. eapply IH; [|exact Hrun]. by eapply dispatch_steady.
Qed.

Lemma reachable_steady (store : storage) (sys : System) :
  reachable store sys → steady sys.
Proof. intros [evs Hrun]. eapply run_steady; [apply opened_steady | done]. Qed.



(** X6: at every state of a session the loading flag is on exactly
    while an encoder call is awaited; meanwhile the input still shows
    the text the call was started from, that text passed validation,
    no error is shown, and neither typing nor a second generation is
    offered: at most one encoder call is in flight. *)
Theorem one_call_in_flight (store : storage) (sys : System) :
  reachable store sys →
  loading_matches sys
  ∧ (awaited sys ≠ None →
     ∀ env v, dispatch (ClickGenerate env) sys = None
              ∧ dispatch (Type_ v) sys = None).
Proof.
  intros H. apply reachable_steady in H as (_ & Hload & _).
  split; [done|]. intros Hwait env v. unfold loading_matches in Hload.
  destruct (awaited sys) as [[env' u]|]; [|done].
  destruct Hload as (Hon & _). cbn [dispatch]. by rewrite Hon.
Qed.

Lemma one_call_in_flight_witness :
  ∃ sys, run (take 3 sample_session) (opened None) = Some sys
         ∧ awaited sys = Some (sample_env, js "https://example.com")
         ∧ loading_matches sys
         ∧ dispatch (ClickGenerate sample_env) sys = None.
Proof.
  eexists. split; [vm_compute; reflexivity|]. split; [reflexivity|].
  match goal with
  | |- loading_matches ?s ∧ _ =>
      destruct (one_call_in_flight None s) as [Hload Hbusy];
        [exists (take 3 sample_session); vm_compute; reflexivity|]
  end.
  split; [exact Hload|]. by apply (Hbusy ltac:(done) sample_env []).
Defined.

(** X7: at every state of a session the error cell is empty or holds
    one of the two messages of the handler. *)
Theorem only_two_messages (store : storage) (sys : System) :
  reachable store sys →
  error (state sys) = None
  ∨ error (state sys)
    = Some (js "Please enter a valid URL (e.g., https://example.com).")
  ∨ error (state sys)
    = Some (js "Failed to generate QR code. Please try again.").
Proof. intros H. by apply reachable_steady in H as (_ & _ & ?). Qed.

Lemma only_two_messages_witness :
  ∃ sys,
    run [Type_ (js "not a url"); ClickGenerate rejecting_env] (opened None)
    = Some sys
    ∧ (error (state sys) = None
       ∨ error (state sys)
         = Some (js "Please enter a valid URL (e.g., https://example.com).")
       ∨ error (state sys)
         = Some (js "Failed to generate QR code. Please try again.")).
Proof.
  eexists. split; [vm_compute; reflexivity|].
  apply (only_two_messages None).
  exists [Type_ (js "not a url"); ClickGenerate rejecting_env].
  vm_compute. reflexivity.
Defined.

(** *** Urls of the history *)









(** X12: an input made of white space and line terminators only is
    rejected whatever the URL constructor answers: the click sets the
    validation message and starts no encoder call. *)
Theorem blank_input_never_encoded (env : GenerateEnv) (sys : System) :
  Forall (λ c, is_trimmed_unit c = true) (urlInput (state sys)) →
  state (generate_click env sys)
  = setError (Some invalid_url_message) (state sys)
  ∧ awaited (generate_click env sys) = awaited sys.
Proof.
  intros Hblank%trim_nil. unfold generate_click, generate_start, rejects.
  by rewrite Hblank.
Qed.

Lemma blank_input_never_encoded_witness :
  let sys := {| state := setUrlInput [32; 9; 160; 10; 8232] initial_state;
                stored := None; awaited := None |} in
  state (generate_click sample_env sys)
  = setError (Some invalid_url_message) (state sys)
  ∧ awaited (generate_click sample_env sys) = None.
Proof.
  apply (blank_input_never_encoded sample_env
           {| state := setUrlInput [32; 9; 160; 10; 8232] initial_state;
              stored := None; awaited := None |}).
  repeat constructor.
Defined.

(** X13: no event makes up an entry: an entry of the history after an
    event was in the history before it, or is the one entry a settled
    encoder call creates from its captured input and its payload, or
    comes from the stored list a reload reads. *)
Theorem entries_come_from_encoder_or_store (ev : event) (sys sys' : System)
    (x : QrCodeEntry) :
  dispatch ev sys = Some sys' → x ∈ history (state sys') →
  x ∈ history (state sys)
  ∨ (∃ written env captured payload,
       ev = Settle written ∧ awaited sys = Some (env, captured)
       ∧ toDataURL env = Returns payload ∧ x = created env captured payload)
  ∨ (∃ access written1 written2 h,
       ev = Reload access written1 written2
       ∧ read_history (getItem access (stored sys)) = LoadedHistory h
       ∧ x ∈ h).
Proof.
  destruct ev as [a w1 w2|v|env|w|i|c w]; cbn [dispatch].
  - unfold mount, load_effect.
    destruct (read_history (getItem a (stored sys))) as [|h|] eqn:Hread;
      [| |done]; intros [= <-]; cbn [state].
    + intros Hx. by apply elem_of_nil in Hx.
    + rewrite install_history. intros Hx. right. right. by exists a, w1, w2, h.
  - destruct (isLoading (state sys)); [done|]. intros [= <-]. by left.
  - destruct (_ || _); [done|]. intros [= <-]. unfold generate_click.
    pose proof (generate_start_history env (state sys)) as Hsame.
    destruct (generate_start env (state sys)); cbn [state];
      rewrite Hsame; by left.
  - unfold settle. destruct (awaited sys) as [[env u]|] eqn:Hwait; [|done].
    intros [= <-]. cbn [state]. rewrite generate_settle_history.
    destruct (toDataURL env) as [payload|] eqn:Henc; [|by left].
    unfold insert. intros [->|Hx]%elem_of_cons.
    + right. left. by exists w, env, u, payload.
    + left. apply elem_of_take in Hx as (j & Hx%list_elem_of_lookup_2 & _).
      rewrite list_elem_of_filter in Hx. by destruct Hx.
  - destruct (history (state sys) !! i); [|done]. intros [= <-]. by left.
  - destruct (history (state sys)) eqn:Hhist; [done|]. intros [= <-].
    unfold clear_click, handleClearHistory. destruct c; cbn [state].
    + intros Hx. by apply elem_of_nil in Hx.
    + rewrite Hhist. by left.
Qed.

Lemma entries_come_from_encoder_or_store_witness :
  ∃ sys sys',
    run (take 3 sample_session) (opened None) = Some sys
    ∧ dispatch (Settle (Returns ())) sys = Some sys'
    ∧ history (state sys')
      = [created sample_env (js "https://example.com")
           (js "data:image/png;base64,iVBORw0KGgo=")]
    ∧ ∀ x, x ∈ history (state sys') →
           x = created sample_env (js "https://example.com")
                 (js "data:image/png;base64,iVBORw0KGgo=").
Proof.
  eexists _, _. split; [vm_compute; reflexivity|].
  split; [vm_compute; reflexivity|]. split; [reflexivity|].
  intros x Hx.
  match type of Hx with
  | x ∈ history (state ?s') =>
      destruct (entries_come_from_encoder_or_store (Settle (Returns ()))
                  {| state := setError None (setIsLoading true
                       (setUrlInput (js "https://example.com") initial_state));
                     stored := Some (js "[]");
                     awaited := Some (sample_env, js "https://example.com") |}
                  s' x eq_refl Hx)
        as [Hold|[(w & env & u & p & _ & [= <- <-] & [= <-] & ->)
                 |(a & w1 & w2 & h & Hev & _)]]
  end.
  - by apply elem_of_nil in Hold.
  - reflexivity.
  - discriminate Hev.
Defined.

(** *** The store and the history *)

Lemma mount_synced (access written1 written2 : outcome unit)
    (sys sys' : System) :
  returned written1 && returned written2 = true →
  mount access written1 written2 sys = Some sys' → synced sys'.
Proof.
  intros [Hw1 Hw2]%andb_true_iff. destruct written1, written2; try done.
  unfold mount, load_effect.
  by destruct (read_history (getItem access (stored sys))) as [|h|];
    [| |done]; intros [= <-].
Qed.

Lemma dispatch_synced (ev : event) (sys sys' : System) :
  writes_succeed ev = true → synced sys →
  dispatch ev sys = Some sys' → synced sys'.
Proof.
  unfold synced. intros Hok Hsync.
  destruct ev as [a w1 w2|v|env|w|i|c w]; cbn [dispatch writes_succeed] in *.
  - by apply mount_synced.
  - destruct (isLoading (state sys)); [done|]. by intros [= <-].
  - destruct (_ || _); [done|]. intros [= <-]. unfold generate_click.
    pose proof (generate_start_history env (state sys)) as Hsame.
    destruct (generate_start env (state sys)); cbn [state stored];
      by rewrite Hsame.
  - unfold settle. destruct (awaited sys) as [[env u]|]; [|done].
    intros [= <-]. cbn [state stored]. destruct w; [|done].
    pose proof (generate_settle_history env u (state sys)) as Hh.
    destruct (toDataURL env) eqn:Henc; by rewrite Hh.
  - destruct (history (state sys) !! i); [|done]. by intros [= <-].
  - destruct (history (state sys)) eqn:Hhist; [done|]. intros [= <-].
    unfold clear_click. destruct c, w; try done.
    all: cbn [handleClearHistory state stored]; by rewrite Hsync, Hhist.
Qed.

Lemma run_synced (evs : list event) (sys sys' : System) :
  Forall (λ ev, writes_succeed ev = true) evs → synced sys →
  run evs sys = Some sys' → synced sys'.
Proof.
  intros Hok. revert sys. induction Hok as [|ev evs Hev _ IH];
    intros sys Hsys; cbn [run].
  - by intros [= <-].
  - destruct (dispatch ev sys) as [sys1|] eqn:Hstep; [|done].
    cbn. intros Hrun. eapply IH; [|exact Hrun]. by eapply dispatch_synced.
Qed.

Lemma session_synced (store : storage) (access written1 written2 : outcome unit)
    (evs : list event) (sys : System) :
  Forall (λ ev, writes_succeed ev = true)
    (Reload access written1 written2 :: evs) →
  run (Reload access written1 written2 :: evs) (opened store) = Some sys →
  synced sys.
Proof.
  intros [Hfirst Hrest]%Forall_cons. cbn [run dispatch].
  destruct (mount access written1 written2 (opened store)) as [sys1|] eqn:Hm;
    [|done].
  cbn. apply run_synced; [done|]. by eapply mount_synced.
Qed.

(** X9: in a session that starts with the mount and in which every
    write to the storage succeeds, the text under the key is at every
    state the serialization of the current history. *)
Theorem stored_text_tracks_history (store : storage)
    (access written1 written2 : outcome unit) (evs : list event)
    (sys : System) :
  Forall (λ ev, writes_succeed ev = true)
    (Reload access written1 written2 :: evs) →
  run (Reload access written1 written2 :: evs) (opened store) = Some sys →
  stored sys = Some (JSON_stringify (history (state sys))).
Proof. apply session_synced. Qed.

Lemma stored_text_tracks_history_witness :
  ∃ sys, run sample_session (opened None) = Some sys
         ∧ stored sys = Some (JSON_stringify (history (state sys))).
Proof.
  eexists. split; [vm_compute; reflexivity|].
  apply (stored_text_tracks_history None (Returns ()) (Returns ()) (Returns ())
           (drop 1 sample_session)).
  - repeat constructor.
  - vm_compute. reflexivity.
Defined.

(** X10: after such a session, when the timestamps of the history are
    integers of magnitude at most 2^53 (as [Date.now()] returns them),
    reloading the page over a readable storage brings back the same
    history and selects its first entry; the input is empty, no error
    is shown and no encoder call is awaited. *)
Theorem reload_restores_history (store : storage)
    (access written1 written2 : outcome unit) (evs : list event)
    (sys : System) (again1 again2 : outcome unit) :
  Forall (λ ev, writes_succeed ev = true)
    (Reload access written1 written2 :: evs) →
  run (Reload access written1 written2 :: evs) (opened store) = Some sys →
  Forall (λ e, safe_integer (createdAt e)) (history (state sys)) →
  ∃ sys', dispatch (Reload (Returns ()) again1 again2) sys = Some sys'
          ∧ history (state sys') = history (state sys)
          ∧ currentQr (state sys') = head (history (state sys))
          ∧ urlInput (state sys') = [] ∧ error (state sys') = None
          ∧ isLoading (state sys') = false ∧ awaited sys' = None.
Proof.
  intros Hok Hrun Hsafe.
  pose proof (session_synced _ _ _ _ _ _ Hok Hrun) as Hsync.
  unfold synced in Hsync. cbn [dispatch]. unfold mount, load_effect.
  cbn [getItem]. rewrite Hsync, read_history_stringify by done.
  eexists. split; [reflexivity|]. cbn [state awaited].
  rewrite install_history. by destruct (history (state sys)).
Qed.

Lemma reload_restores_history_witness :
  ∃ sys sys',
    run sample_session (opened None) = Some sys
    ∧ dispatch (Reload (Returns ()) Throws Throws) sys = Some sys'
    ∧ history (state sys') = history (state sys)
    ∧ currentQr (state sys') = head (history (state sys)).
Proof.
  eexists.
  destruct (reload_restores_history None (Returns ()) (Returns ()) (Returns ())
              (drop 1 sample_session) _ Throws Throws
              ltac:(repeat constructor) ltac:(vm_compute; reflexivity)
              ltac:(repeat constructor; simpl; lia))
    as (sys' & Hstep & Hh & Hsel & _).
  exists sys'. split; [vm_compute; reflexivity|]. by repeat split.
Defined.

(** X11: when the mount finds no history to load (the key is absent,
    the stored text is empty or does not parse, or reading throws) and
    the storage can be written, the component starts empty and the key
    then holds the text of the empty list, whatever it held before. *)
Theorem mount_without_history_resets_store (access written2 : outcome unit)
    (sys : System) :
  (stored sys = None ∨ stored sys = Some [] ∨ access = Throws
   ∨ ∃ text, stored sys = Some text ∧ JSON_parse text = Throws) →
  mount access (Returns ()) written2 sys
  = Some {| state := initial_state; stored := Some (js "[]");
            awaited := None |}.
Proof.
  intros Hcase. unfold mount, load_effect.
  assert (read_history (getItem access (stored sys)) = NotLoaded) as ->; [|done].
  destruct access as [[]|]; [|done]. cbn [getItem].
  destruct Hcase as [->|[->|[?|(text & -> & Hbad)]]]; try done.
  unfold read_history. rewrite Hbad. by destruct (truthy text).
Qed.

Lemma mount_without_history_resets_store_witness :
  mount (Returns ()) (Returns ()) (Returns ())
    (opened (Some (json_text "[{'id':'1','url':'https://example.com',")))
  = Some {| state := initial_state; stored := Some (js "[]");
            awaited := None |}.
Proof.
  apply mount_without_history_resets_store.
  right. right. right. eexists. split; [reflexivity|]. vm_compute. reflexivity.
Defined.

(** *** Download *)

(** X14: at every state of a session, a download without a selection
    does nothing, and otherwise the anchor that is clicked serves the
    payload of the selected entry, which is an entry of the history,
    under the name qrcode-HOST.png for the host the URL constructor
    reports; when that constructor throws, nothing is offered. *)
Theorem download_serves_selected_entry (store : storage) (sys : System)
    (hostname : outcome jsstring) :
  reachable store sys →
  match handleDownload hostname (state sys) with
  | Returns None => currentQr (state sys) = None
  | Returns (Some anchor) =>
      ∃ e host, hostname = Returns host ∧ currentQr (state sys) = Some e
                ∧ e ∈ history (state sys) ∧ href anchor = dataUrl e
                ∧ download anchor = js "qrcode-" ++ host ++ js ".png"
  | Throws => hostname = Throws ∧ is_Some (currentQr (state sys))
  end.
Proof.
  intros (Hsel & _)%reachable_steady.
  unfold handleDownload, selection_in_history in *.
  destruct (currentQr (state sys)) as [e|]; [|done].
  destruct hostname as [host|]; [by exists e, host | by split].
Qed.

Lemma download_serves_selected_entry_witness :
  ∃ sys,
    run sample_session (opened None) = Some sys
    ∧ match handleDownload (Returns (js "example.com")) (state sys) with
      | Returns None => currentQr (state sys) = None
      | Returns (Some anchor) =>
          ∃ e host, Returns (js "example.com") = Returns host
                    ∧ currentQr (state sys) = Some e
                    ∧ e ∈ history (state sys) ∧ href anchor = dataUrl e
                    ∧ download anchor = js "qrcode-" ++ host ++ js ".png"
      | Throws => Returns (js "example.com") = Throws
                  ∧ is_Some (currentQr (state sys))
      end.
Proof.
  eexists. split; [vm_compute; reflexivity|].
  apply (download_serves_selected_entry None).
  exists sample_session. vm_compute. reflexivity.
Defined.

Example download_after_session :
  (λ sys, handleDownload (Returns (js "example.com")) (state sys))
    <$> run sample_session (opened None)
  = Some (Returns (Some {| href := js "data:image/png;base64,iVBORw0KGgo=";
                           download := js "qrcode-example.com.png" |})).
Proof. vm_compute. reflexivity. Qed.
